(** * multichan: a one-to-many broadcast stream

    A shallow embedding of the mutex-protected [W]/[R] implementation
    (the version with [trim], [Dispose] and a context argument to [Read]),
    together with the invariants of the shared buffer and the properties of
    reading, closing, attaching and disposing.

    Conventions.
    - Go's [int] is the 64-bit two's-complement integer: values are [Z] and
      every [+], [-] and [++] of the source goes through [wrap].
    - [interface{}] values are an abstract type [Item] with the two
      operations the code uses from package reflect, see [GoValue].
    - Every method body runs with [w.mu] held, so a method call is one atomic
      transition of the shared state.  The only place where the lock is
      released inside a method is [cond.Wait] in [Read]: a call of [Read] is
      modelled by its attempts, each one evaluating the loop condition under
      the lock and either suspending ([Blocked]) or running to its return.
    - A run-time panic is the outcome [Panic]. *)

From stdpp Require Import base option list numbers strings.

Open Scope Z_scope.

(** ** Machine integers *)

Definition int_bits : Z := 64.
Definition int_min : Z := - 2 ^ (int_bits - 1).
Definition int_max : Z := 2 ^ (int_bits - 1) - 1.

(** Two's-complement wrap-around of an [int] result. *)
Definition wrap (z : Z) : Z :=
  (z + 2 ^ (int_bits - 1)) `mod` 2 ^ int_bits - 2 ^ (int_bits - 1).

(** [len(s)] of a slice. *)
Definition len {A} (l : list A) : Z := Z.of_nat (length l).

(** ** Outcomes of a call *)

Inductive outcome (A : Type) : Type :=
  | Ret (a : A)      (* the call returns *)
  | Blocked          (* the call is suspended in cond.Wait *)
  | Panic.           (* run-time panic *)
Arguments Ret {A} a.
Arguments Blocked {A}.
Arguments Panic {A}.

Global Instance outcome_ret : MRet outcome := @Ret.
Global Instance outcome_bind : MBind outcome := λ A B f m,
  match m with
  | Ret a => f a
  | Blocked => Blocked
  | Panic => Panic
  end.

(** [s[i]]: indexing a slice panics out of range. *)
Definition index {A} (l : list A) (i : Z) : outcome A :=
  if decide (0 ≤ i) then
    match l !! Z.to_nat i with
    | Some x => Ret x
    | None => Panic
    end
  else Panic.

(** [s[i] = x]: assignment to a slice element panics out of range. *)
Definition assign {A} (l : list A) (i : Z) (x : A) : outcome (list A) :=
  if decide (0 ≤ i < len l) then Ret (<[Z.to_nat i := x]> l) else Panic.

(** [s[d:]]: reslicing panics unless [0 <= d <= len(s)]. *)
Definition slice_from {A} (l : list A) (d : Z) : outcome (list A) :=
  if decide (0 ≤ d ≤ len l) then Ret (drop (Z.to_nat d) l) else Panic.

(** The body of the loop of [trim]: [if p >= 0 && p < min { min = p }]. *)
Definition trim_pick (min p : Z) : Z :=
  if bool_decide (0 ≤ p ∧ p < min) then p else min.

(** ** Dynamically typed values

    What the code needs from [interface{}] and package reflect:
    [reflect.TypeOf], which is nil for a nil interface value, and
    [Type.AssignableTo]. *)
Class GoValue (Item : Type) := {
  Ty : Type;
  TypeOf : Item → option Ty;
  AssignableTo : Ty → Ty → bool;
}.

Section multichan.
Context {Item : Type} `{!GoValue Item}.

(** ** The two ends *)

(** [W], the writing end.  [mu] and [cond] have no data. *)
Record W : Type := mkW {
  zero : Item;
  zerotype : option Ty;
  closed : bool;
  items : list Item;
  offset : Z;
  readerpos : list Z;
}.

(** [R], the reading end.  Its field [w] is the pointer to the one shared
    [W], which the operations below take and return explicitly. *)
Record R : Type := mkR {
  id : Z;
  pos : Z;
}.

Definition set_closed (w : W) (b : bool) : W :=
  mkW (zero w) (zerotype w) b (items w) (offset w) (readerpos w).
Definition set_items (w : W) (l : list Item) : W :=
  mkW (zero w) (zerotype w) (closed w) l (offset w) (readerpos w).
Definition set_offset (w : W) (o : Z) : W :=
  mkW (zero w) (zerotype w) (closed w) (items w) o (readerpos w).
Definition set_readerpos (w : W) (l : list Z) : W :=
  mkW (zero w) (zerotype w) (closed w) (items w) (offset w) l.
Definition set_pos (r : R) (p : Z) : R := mkR (id r) p.

(** [New] *)
Definition New (z : Item) : W :=
  mkW z (TypeOf z) false [] 0 [].

(** [streamlen] *)
Definition streamlen (w : W) : Z := wrap (offset w + len (items w)).

(** [item] *)
Definition item (w : W) (p : Z) : outcome Item :=
  index (items w) (wrap (p - offset w)).

(** The loop of [trim]: the least non-negative reader position below the
    stream length, or the stream length. *)
Definition trim_min (w : W) : Z :=
  foldl trim_pick (streamlen w) (readerpos w).

(** [trim] *)
Definition trim (w : W) : outcome W :=
  let min := trim_min w in
  let delta := wrap (min - offset w) in
  if bool_decide (0 < delta) then
    its ← slice_from (items w) delta;
    mret (set_offset (set_items w its) (wrap (offset w + delta)))
  else mret w.

(** [Write].  [t.AssignableTo] is a method call on the interface value [t],
    which panics when [t] is nil, and it panics on a nil argument. *)
Definition Write (w : W) (x : Item) : outcome W :=
  match TypeOf x, zerotype w with
  | Some t, Some zt =>
      if AssignableTo t zt then trim (set_items w (items w ++ [x]))
      else Panic
  | _, _ => Panic
  end.

(** The check at the head of [Write]. *)
Definition writable (w : W) (x : Item) : bool :=
  match TypeOf x, zerotype w with
  | Some t, Some zt => AssignableTo t zt
  | _, _ => false
  end.

(** [Close] *)
Definition Close (w : W) : W := set_closed w true.

(** [Reader] *)
Definition Reader (w : W) : W * R :=
  (set_readerpos w (readerpos w ++ [0]), mkR (len (readerpos w)) (offset w)).

(** [doRead] *)
Definition doRead (r : R) (w : W) : outcome (Item * R * W) :=
  result ← item w (pos r);
  let r := set_pos r (wrap (pos r + 1)) in
  rp ← assign (readerpos w) (id r) (pos r);
  w ← trim (set_readerpos w rp);
  mret (result, r, w).

(** A context argument: [None] is the nil interface value; [Some c] is a
    context whose [Err()] is non-nil exactly when [c] is true.  [Err] never
    goes back to nil, so one attempt sees one value of it. *)
Definition context : Type := option bool.

(** The condition of the [for] loop of [Read], with the short-circuit
    evaluation of [&&]: [ctx.Err()] is reached only when the first two
    conjuncts hold, and it is a method call on the interface value [ctx]. *)
Definition Read_cond (ctx : context) (r : R) (w : W) : outcome bool :=
  if bool_decide (streamlen w ≤ pos r) then
    if negb (closed w) then
      match ctx with
      | None => Panic
      | Some c => mret (negb c)
      end
    else mret false
  else mret false.

(** The test after the loop of [Read]. *)
Definition Read_done (ctx : context) (r : R) (w : W) : bool :=
  match ctx with
  | Some true => true
  | _ => bool_decide (streamlen w ≤ pos r)
  end.

(** One attempt of [Read]. *)
Definition Read (ctx : context) (r : R) (w : W) : outcome (Item * bool * R * W) :=
  wait ← Read_cond ctx r w;
  if (wait : bool) then Blocked
  else if Read_done ctx r w then mret (zero w, false, r, w)
  else '(x, r, w) ← doRead r w; mret (x, true, r, w).

(** [NBRead] *)
Definition NBRead (r : R) (w : W) : outcome (Item * bool * R * W) :=
  if bool_decide (streamlen w ≤ pos r) then mret (zero w, false, r, w)
  else '(x, r, w) ← doRead r w; mret (x, true, r, w).

(** [Dispose] *)
Definition Dispose (r : R) (w : W) : outcome W :=
  rp ← assign (readerpos w) (id r) (-1);
  trim (set_readerpos w rp).

(** ** A stream with its readers

    The whole program state: the shared [W], the [R] values handed out by
    [Reader] (the reader created by the [i]-th call has index [i]), and, as
    specification state only, the sequence of all items written so far: the
    item at index [p] of [written] is the item at global position [p]. *)
Record World : Type := mkWorld {
  shared : W;
  handles : list R;
  written : list Item;
}.

Inductive Op : Type :=
  | OpWrite (x : Item)
  | OpClose
  | OpReader
  | OpRead (i : nat) (ctx : context)
  | OpNBRead (i : nat)
  | OpDispose (i : nat).

Inductive Res : Type :=
  | Done
  | Handle (i : nat)
  | Got (x : Item) (ok : bool).

Definition init (z : Item) : World := mkWorld (New z) [] [].

(** The receiver of a reader method: a method call through a reader that
    does not exist is a call through a nil [*R]. *)
Definition handle (Wd : World) (i : nat) : outcome R :=
  match handles Wd !! i with
  | Some r => Ret r
  | None => Panic
  end.

(** One method call. *)
Definition step (Wd : World) (op : Op) : outcome (World * Res) :=
  match op with
  | OpWrite x =>
      w ← Write (shared Wd) x;
      mret (mkWorld w (handles Wd) (written Wd ++ [x]), Done)
  | OpClose =>
      mret (mkWorld (Close (shared Wd)) (handles Wd) (written Wd), Done)
  | OpReader =>
      let '(w, r) := Reader (shared Wd) in
      mret (mkWorld w (handles Wd ++ [r]) (written Wd),
            Handle (length (handles Wd)))
  | OpRead i ctx =>
      r ← handle Wd i;
      '(x, ok, r, w) ← Read ctx r (shared Wd);
      mret (mkWorld w (<[i := r]> (handles Wd)) (written Wd), Got x ok)
  | OpNBRead i =>
      r ← handle Wd i;
      '(x, ok, r, w) ← NBRead r (shared Wd);
      mret (mkWorld w (<[i := r]> (handles Wd)) (written Wd), Got x ok)
  | OpDispose i =>
      r ← handle Wd i;
      w ← Dispose r (shared Wd);
      mret (mkWorld w (handles Wd) (written Wd), Done)
  end.

(** The state after a call: a suspended attempt and a panic leave the state
    as it was.  In the states of the invariant [inv] below the panics that
    can occur are raised before the first assignment of their method (see
    [step_panic]), under a lock that is released by a deferred call. *)
Definition after (Wd : World) (op : Op) : World :=
  match step Wd op with
  | Ret (Wd', _) => Wd'
  | _ => Wd
  end.

Definition result_of (Wd : World) (op : Op) : outcome Res :=
  match step Wd op with
  | Ret (_, res) => Ret res
  | Blocked => Blocked
  | Panic => Panic
  end.

(** The state after a schedule of calls, and its trace. *)
Definition run (Wd : World) (ops : list Op) : World := foldl after Wd ops.

Fixpoint trace (Wd : World) (ops : list Op) : list (Op * outcome Res) :=
  match ops with
  | [] => []
  | op :: ops => (op, result_of Wd op) :: trace (after Wd op) ops
  end.

(** *** What a reader sees in a trace *)

(** [op] is a read through reader [i]. *)
Definition reads_of (i : nat) (op : Op) : bool :=
  match op with
  | OpRead j _ | OpNBRead j => bool_decide (j = i)
  | _ => false
  end.

(** The pairs returned to reader [i] by an event, and the items among them
    that came with [true]. *)
Definition results (i : nat) (ev : Op * outcome Res) : list (Item * bool) :=
  match ev with
  | (op, Ret (Got x ok)) => if reads_of i op then [(x, ok)] else []
  | _ => []
  end.

Definition received (i : nat) (ev : Op * outcome Res) : list Item :=
  match ev with
  | (op, Ret (Got x true)) => if reads_of i op then [x] else []
  | _ => []
  end.

(** The items at the global positions [a], ..., [b - 1]. *)
Definition window (ws : list Item) (a b : Z) : list Item :=
  take (Z.to_nat (b - a)) (drop (Z.to_nat a) ws).

(** Calls of the writer, and calls of reader [i] that wait for data: a
    non-blocking read, or a blocking read whose context is not cancelled. *)
Definition by_writer (op : Op) : bool :=
  match op with
  | OpWrite _ | OpClose => true
  | _ => false
  end.

Definition is_write (op : Op) : bool :=
  match op with
  | OpWrite _ => true
  | _ => false
  end.

Definition reading (i : nat) (op : Op) : Prop :=
  op = OpNBRead i ∨ ∃ ctx, ctx ≠ Some true ∧ op = OpRead i ctx.

(** [op] is a blocking read through reader [i] whose context is not
    cancelled. *)
Definition waits_on (i : nat) (op : Op) : Prop :=
  ∃ ctx, ctx ≠ Some true ∧ op = OpRead i ctx.

(** [op] neither disposes of reader [i] nor reads through it with a
    cancelled context. *)
Definition undisturbed (i : nat) (op : Op) : Prop :=
  (∀ j, op = OpDispose j → j ≠ i) ∧ (reads_of i op = true → reading i op).

(** The number of reads through reader [i] in a schedule. *)
Definition reads_in (i : nat) (ops : list Op) : nat :=
  length (filter (λ op, reads_of i op = true) ops).

(** The states a program can be in. *)
Inductive reachable : World → Prop :=
  | reachable_init z : reachable (init z)
  | reachable_step Wd op : reachable Wd → reachable (after Wd op).

(** ** The invariant of the shared buffer *)

(** The buffer is in range when [streamlen] does not overflow. *)
Definition in_range (w : W) : Prop :=
  0 ≤ offset w ∧ offset w + len (items w) ≤ int_max.

(** A [readerpos] entry of a reader that has not been disposed of. *)
Definition active (e : Z) : Prop := 0 ≤ e.

(** How a reader's own position relates to its [readerpos] entry [e]:
    the reader is disposed of, or it has not read yet and stands at the
    offset, or the entry is its position. *)
Definition tracks (w : W) (r : R) (e : Z) : Prop :=
  e = -1 ∨ (e = 0 ∧ pos r = offset w) ∨ (e = pos r ∧ offset w ≤ pos r).

(** Reader [i] exists and has not been disposed of. *)
Definition attached (Wd : World) (i : nat) : Prop :=
  ∃ r e, handles Wd !! i = Some r ∧ readerpos (shared Wd) !! i = Some e ∧ active e.

(** The buffer holds the items written from [offset] on, no more than
    [int_max] items were written, and every reader has its entry. *)
Record consistent (Wd : World) : Prop := mkConsistent {
  inv_offset : 0 ≤ offset (shared Wd);
  inv_end : offset (shared Wd) ≤ len (written Wd);
  inv_bound : len (written Wd) ≤ int_max;
  inv_items : items (shared Wd) = drop (Z.to_nat (offset (shared Wd))) (written Wd);
  inv_handles : length (handles Wd) = length (readerpos (shared Wd));
  inv_handle : ∀ i r, handles Wd !! i = Some r →
    id r = Z.of_nat i ∧ 0 ≤ pos r ≤ len (written Wd) ∧
    ∃ e, readerpos (shared Wd) !! i = Some e ∧ tracks (shared Wd) r e;
}.

(** Nothing is left to trim. *)
Definition trimmed (w : W) : Prop := trim_min w ≤ offset w.

Definition inv (Wd : World) : Prop := consistent Wd ∧ trimmed (shared Wd).

End multichan.

(** ** The earlier version

    The version of the package that the test file carries along: [W], [R],
    [New], [Close], [Reader], [streamlen] and [item] are as above (there is
    no [Dispose], so no entry of [readerpos] is negative), [Write] does not
    trim, [Read] takes no context, and [doRead] trims in line. *)
Module Old.
Section old.
Context {Item : Type} `{!GoValue Item}.

(** [Write] *)
Definition Write (w : W) (x : Item) : outcome W :=
  match TypeOf x, zerotype w with
  | Some t, Some zt =>
      if AssignableTo t zt then mret (set_items w (items w ++ [x]))
      else Panic
  | _, _ => Panic
  end.

(** The body of the loop of [doRead]: [if p < min { min = p }]. *)
Definition min_pick (min p : Z) : Z :=
  if bool_decide (p < min) then p else min.

(** [doRead] *)
Definition doRead (r : R) (w : W) : outcome (Item * R * W) :=
  result ← item w (pos r);
  let r := set_pos r (wrap (pos r + 1)) in
  rp ← assign (readerpos w) (id r) (pos r);
  let w := set_readerpos w rp in
  let min := foldl min_pick (streamlen w) (readerpos w) in
  let delta := wrap (min - offset w) in
  w ← (if bool_decide (0 < delta) then
         its ← slice_from (items w) delta;
         mret (set_offset (set_items w its) (wrap (offset w + delta)))
       else mret w);
  mret (result, r, w).

(** One attempt of [Read]. *)
Definition Read (r : R) (w : W) : outcome (Item * bool * R * W) :=
  if bool_decide (streamlen w ≤ pos r) && negb (closed w) then Blocked
  else if bool_decide (streamlen w ≤ pos r) then mret (zero w, false, r, w)
  else '(x, r, w) ← doRead r w; mret (x, true, r, w).

(** [NBRead] *)
Definition NBRead (r : R) (w : W) : outcome (Item * bool * R * W) :=
  if bool_decide (streamlen w ≤ pos r) then mret (zero w, false, r, w)
  else '(x, r, w) ← doRead r w; mret (x, true, r, w).

(** The writer writes the items of a list, one after the other. *)
Fixpoint Writes (w : W) (xs : list Item) : outcome W :=
  match xs with
  | [] => mret w
  | x :: xs => w ← Write w x; Writes w xs
  end.

End old.
End Old.

(** ** The values of the test suite

    The tests write Go [int]s to a stream created with [New(0)], and one of
    them writes a [string] to it. *)
Inductive value : Type :=
  | VInt (n : Z)
  | VString (s : string)
  | VNil.

Inductive type : Type := TInt | TString.

Global Instance type_eq_dec : EqDecision type.
Proof. solve_decision. Defined.

Global Instance value_GoValue : GoValue value := {|
  Ty := type;
  TypeOf v :=
    match v with
    | VInt _ => Some TInt
    | VString _ => Some TString
    | VNil => None
    end;
  AssignableTo t u := bool_decide (t = u);
|}.

(** Closed goals are settled by evaluation. *)
Ltac evaluate := vm_compute; repeat split; first [reflexivity | discriminate].

(** ** Machine integers: facts *)


Lemma wrap_id z : int_min ≤ z ≤ int_max → wrap z = z.
Proof.
  unfold wrap, int_min, int_max, int_bits. change (64 - 1) with 63.
  change (2 ^ 63) with 9223372036854775808.
  change (2 ^ 64) with 18446744073709551616.
  intros Hz. rewrite Z.mod_small; lia.
Qed.


Lemma int_min_eq : int_min = - int_max - 1.
Proof. reflexivity. Qed.

Lemma int_max_pos : 1 < int_max.
Proof. reflexivity. Qed.

Lemma len_nonneg {A} (l : list A) : 0 ≤ len l.
Proof. unfold len. lia. Qed.

Lemma len_app {A} (l k : list A) : len (l ++ k) = len l + len k.
Proof. unfold len. rewrite length_app. lia. Qed.

Lemma len_snoc {A} (l : list A) (x : A) : len (l ++ [x]) = len l + 1.
Proof. unfold len. rewrite length_app. simpl. lia. Qed.

Lemma len_cons {A} (x : A) (l : list A) : len (x :: l) = len l + 1.
Proof. unfold len. simpl. lia. Qed.

Lemma len_drop {A} (l : list A) (n : Z) :
  0 ≤ n ≤ len l → len (drop (Z.to_nat n) l) = len l - n.
Proof. unfold len. rewrite length_drop. lia. Qed.

Global Opaque wrap int_min int_max.

(** Linear arithmetic that knows the range of [int]. *)
Ltac int_lia :=
  pose proof int_min_eq; pose proof int_max_pos;
  repeat match goal with
  | |- context [len ?l] =>
      lazymatch goal with
      | _ : 0 ≤ len l |- _ => fail
      | _ => pose proof (len_nonneg l)
      end
  | _ : context [len ?l] |- _ =>
      lazymatch goal with
      | _ : 0 ≤ len l |- _ => fail
      | _ => pose proof (len_nonneg l)
      end
  end;
  lia.

(** ** Schedules *)

(** A schedule whose selected calls end with [b] splits at that call. *)
Lemma filter_snoc_split {A} (P : A → Prop) `{!∀ x, Decision (P x)}
    (l a : list A) (b : A) :
  filter P l = a ++ [b] →
  ∃ pre post, l = pre ++ b :: post ∧ filter P pre = a ∧ filter P post = [].
Proof.
  revert a. induction l as [|x l IH]; intros a Hf.
  { by destruct a. }
  destruct (decide (P x)) as [HP|HP].
  - rewrite filter_cons_True in Hf by done. destruct a as [|y a]; simpl in Hf.
    + injection Hf as -> Hf. by exists [], l.
    + injection Hf as -> Hf. destruct (IH a Hf) as (pre & post & -> & Hpre & Hpost).
      exists (y :: pre), post. split; [done|]. split; [|done].
      by rewrite filter_cons_True, Hpre.
  - rewrite filter_cons_False in Hf by done.
    destruct (IH a Hf) as (pre & post & -> & Hpre & Hpost).
    exists (x :: pre), post. split; [done|]. split; [|done].
    by rewrite filter_cons_False.
Qed.

Lemma filter_nil_Forall {A} (P : A → Prop) `{!∀ x, Decision (P x)} (l : list A) :
  filter P l = [] → Forall (λ x, ¬ P x) l.
Proof.
  intros Hf. apply Forall_forall. intros x Hx HP.
  by apply (filter_nil_not_elem_of P l x).
Qed.

(** ** The loop of [trim] *)

Lemma pick_fold_le (l : list Z) (m : Z) : foldl trim_pick m l ≤ m.
Proof.
  revert m. induction l as [|p l IH]; intros m; simpl; [lia|].
  etrans; [apply IH|]. unfold trim_pick. case_bool_decide; lia.
Qed.

Lemma pick_fold_lower (l : list Z) (m e : Z) :
  e ∈ l → 0 ≤ e → foldl trim_pick m l ≤ e.
Proof.
  revert m. induction l as [|p l IH]; intros m Hin He; [by apply elem_of_nil in Hin|].
  apply elem_of_cons in Hin as [->|Hin]; simpl.
  - etrans; [apply pick_fold_le|]. unfold trim_pick. case_bool_decide; lia.
  - by apply IH.
Qed.

Lemma pick_fold_cases (l : list Z) (m : Z) :
  foldl trim_pick m l = m ∨ (foldl trim_pick m l ∈ l ∧ 0 ≤ foldl trim_pick m l).
Proof.
  revert m. induction l as [|p l IH]; intros m; simpl; [by left|].
  destruct (IH (trim_pick m p)) as [Heq|[Hin Hnn]].
  - rewrite Heq. unfold trim_pick. case_bool_decide; [|by left].
    right. split; [apply list_elem_of_here|lia].
  - right. split; [by apply list_elem_of_further|done].
Qed.




(** ** The shared buffer, one method at a time *)

Section shared.
Context {Item : Type} `{!GoValue Item}.
Implicit Types (w : W) (r : R).

Lemma streamlen_eq w : in_range w → streamlen w = offset w + len (items w).
Proof.
  intros [Ho Hb]. unfold streamlen. apply wrap_id. int_lia.
Qed.

Lemma trim_min_le w : trim_min w ≤ streamlen w.
Proof. apply pick_fold_le. Qed.

Lemma trim_min_lower w e :
  e ∈ readerpos w → active e → trim_min w ≤ e.
Proof. apply pick_fold_lower. Qed.

Lemma trim_min_cases w :
  trim_min w = streamlen w ∨ (trim_min w ∈ readerpos w ∧ active (trim_min w)).
Proof. apply pick_fold_cases. Qed.

Lemma trim_min_nonneg w : in_range w → 0 ≤ trim_min w.
Proof.
  intros Hr. destruct (trim_min_cases w) as [->|[_ ?]]; [|done].
  rewrite streamlen_eq by done. destruct Hr. int_lia.
Qed.

(** [trim] never panics on a buffer in range: it moves [offset] up to
    [trim_min] and drops the items below it. *)
Lemma trim_spec w :
  in_range w →
  ∃ w', trim w = Ret w' ∧
    offset w' = offset w `max` trim_min w ∧
    items w' = drop (Z.to_nat (offset w' - offset w)) (items w) ∧
    readerpos w' = readerpos w ∧ closed w' = closed w ∧
    zero w' = zero w ∧ zerotype w' = zerotype w.
Proof.
  intros Hr. pose proof (trim_min_nonneg w Hr) as Hnn.
  pose proof (trim_min_le w) as Hle. rewrite streamlen_eq in Hle by done.
  destruct Hr as [Ho Hb].
  unfold trim. rewrite (wrap_id (trim_min w - offset w)) by int_lia.
  case_bool_decide as Hd.
  - unfold slice_from. rewrite decide_True by lia. simpl.
    rewrite wrap_id by int_lia. eexists. split; [done|]. simpl.
    repeat split; try done; [lia|]. f_equal. lia.
  - exists w. split; [done|]. repeat split; try done; [lia|].
    by replace (offset w - offset w) with 0 by lia.
Qed.

(** What no method changes: [trim] and [doRead] leave [closed], [zero]
    and [zerotype] alone, and [trim] leaves [readerpos] alone. *)
Lemma trim_frame w w' :
  trim w = Ret w' →
  readerpos w' = readerpos w ∧ closed w' = closed w ∧
  zero w' = zero w ∧ zerotype w' = zerotype w.
Proof.
  unfold trim, slice_from. case_bool_decide; [case_decide|]; simpl; [| |];
    intros [= <-]; done.
Qed.

Lemma doRead_frame r w x r' w' :
  doRead r w = Ret (x, r', w') →
  closed w' = closed w ∧ zero w' = zero w ∧ zerotype w' = zerotype w.
Proof.
  unfold doRead. destruct (item _ _); simpl; [|done..].
  destruct (assign _ _ _); simpl; [|done..].
  destruct (trim _) as [w1| |] eqn:Htrim; simpl; [|done..].
  intros [= _ _ <-]. by destruct (trim_frame _ _ Htrim) as (_ & ? & ? & ?).
Qed.

(** A cancelled context: [Read] returns the zero value and touches
    nothing, whatever the state. *)
Lemma Read_cancelled r w : Read (Some true) r w = Ret (zero w, false, r, w).
Proof.
  unfold Read, Read_cond. simpl.
  by case_bool_decide; destruct (closed w).
Qed.

(** Without cancellation, once the loop is left [Read] is [NBRead]. *)
Lemma Read_NBRead ctx r w :
  ctx ≠ Some true → pos r < streamlen w ∨ closed w = true →
  Read ctx r w = NBRead r w.
Proof.
  intros Hctx Hready. unfold Read, NBRead, Read_cond, Read_done.
  case_bool_decide as Hp.
  - destruct Hready as [?|Hc]; [lia|]. rewrite Hc. simpl.
    by destruct ctx as [[]|].
  - simpl. by destruct ctx as [[]|].
Qed.

(** Nothing to read from an open stream: a live context suspends ... *)
Lemma Read_blocked r w :
  streamlen w ≤ pos r → closed w = false → Read (Some false) r w = Blocked.
Proof.
  intros Hp Hc. unfold Read, Read_cond. by rewrite bool_decide_true, Hc by done.
Qed.

(** ... and a nil context is dereferenced. *)
Lemma Read_nil r w :
  streamlen w ≤ pos r → closed w = false → Read None r w = Panic.
Proof.
  intros Hp Hc. unfold Read, Read_cond. by rewrite bool_decide_true, Hc by done.
Qed.

Lemma NBRead_nothing r w :
  streamlen w ≤ pos r → NBRead r w = Ret (zero w, false, r, w).
Proof. intros Hp. unfold NBRead. by rewrite bool_decide_true by done. Qed.

Lemma NBRead_doRead r w :
  pos r < streamlen w →
  NBRead r w = '(x, r, w) ← doRead r w; mret (x, true, r, w).
Proof. intros Hp. unfold NBRead. by rewrite bool_decide_false by lia. Qed.

End shared.

(** ** The invariant is kept by every method *)

Section invariant.
Context {Item : Type} `{!GoValue Item}.
Implicit Types (w : W) (r : R) (Wd : World) (x : Item).

Lemma consistent_in_range Wd : consistent Wd → in_range (shared Wd).
Proof.
  intros [Ho He Hb Hi _ _]. split; [done|]. rewrite Hi, len_drop; lia.
Qed.

Lemma consistent_streamlen Wd :
  consistent Wd → streamlen (shared Wd) = len (written Wd).
Proof.
  intros HC. rewrite streamlen_eq by by apply consistent_in_range.
  destruct HC as [Ho He Hb Hi _ _]. rewrite Hi, len_drop; lia.
Qed.

Lemma inv_init z : inv (init z).
Proof.
  split.
  - split; simpl; try done; int_lia.
  - unfold trimmed, trim_min, streamlen, len. simpl. rewrite wrap_id; [done|int_lia].
Qed.

(** [trim] restores the invariant of a consistent state, and moves
    [offset] only. *)
Lemma trim_inv w hs ws :
  consistent (mkWorld w hs ws) →
  ∃ w', trim w = Ret w' ∧ inv (mkWorld w' hs ws) ∧
    offset w' = offset w `max` trim_min w ∧
    readerpos w' = readerpos w ∧ closed w' = closed w ∧
    zero w' = zero w ∧ zerotype w' = zerotype w.
Proof.
  intros HC. pose proof (consistent_in_range _ HC) as Hr.
  pose proof (consistent_streamlen _ HC) as Hsl. simpl in *.
  destruct (trim_spec w Hr) as (w' & Htrim & Hoff & Hits & Hrp & Hcl & Hz & Hzt).
  pose proof (trim_min_le w) as Hle. rewrite Hsl in Hle.
  destruct HC as [Ho He Hb Hi Hhs Hh]; simpl in *.
  assert (consistent (mkWorld w' hs ws)) as HC'.
  { split; simpl.
    - lia.
    - lia.
    - done.
    - rewrite Hits, Hi, drop_drop. f_equal. lia.
    - by rewrite Hrp.
    - intros i r Hir. destruct (Hh i r Hir) as (Hid & Hpos & e & He' & Ht).
      split; [done|]. split; [done|]. exists e. rewrite Hrp. split; [done|].
      assert (active e → trim_min w ≤ e) as Hlow.
      { apply trim_min_lower. by eapply list_elem_of_lookup_2. }
      unfold tracks, active in *. destruct Ht as [?|[[-> ?]|[-> ?]]]; [by left|..].
      + right; left. split; [done|]. specialize (Hlow ltac:(done)). lia.
      + right; right. split; [done|]. specialize (Hlow ltac:(lia)). lia. }
  pose proof (consistent_streamlen _ HC') as Hsl'. simpl in Hsl'.
  exists w'. split; [done|]. split; [split; [done|]|done].
  unfold trimmed, trim_min. simpl. rewrite Hrp, Hsl'.
  unfold trim_min in Hoff. rewrite Hsl in Hoff. lia.
Qed.

Lemma Write_writable w x :
  Write w x = if writable w x then trim (set_items w (items w ++ [x])) else Panic.
Proof.
  unfold Write, writable. by destruct (TypeOf x), (zerotype w).
Qed.

Lemma Write_inv Wd x :
  inv Wd → writable (shared Wd) x = true → len (written Wd) < int_max →
  ∃ w', Write (shared Wd) x = Ret w' ∧
    inv (mkWorld w' (handles Wd) (written Wd ++ [x])) ∧
    readerpos w' = readerpos (shared Wd) ∧ closed w' = closed (shared Wd) ∧
    zero w' = zero (shared Wd) ∧ zerotype w' = zerotype (shared Wd).
Proof.
  intros [HC _] Hw Hlt. rewrite Write_writable, Hw.
  destruct HC as [Ho He Hb Hi Hhs Hh].
  destruct (trim_inv (set_items (shared Wd) (items (shared Wd) ++ [x]))
              (handles Wd) (written Wd ++ [x]))
    as (w' & Htrim & Hinv & _ & Hrp & Hcl & Hz & Hzt).
  { split; simpl; rewrite ?len_app; try done.
    - unfold len at 2. simpl. lia.
    - unfold len at 2. simpl. lia.
    - rewrite Hi, drop_app_le; [done|]. unfold len in He. lia.
    - intros i r Hir. destruct (Hh i r Hir) as (? & ? & e & ? & ?).
      split; [done|]. split; [unfold len at 2; simpl; lia|]. by exists e. }
  by exists w'.
Qed.

Lemma Close_inv Wd :
  inv Wd → inv (mkWorld (Close (shared Wd)) (handles Wd) (written Wd)).
Proof. intros [[] ?]. by split. Qed.

Lemma Reader_inv Wd :
  inv Wd →
  inv (mkWorld (Reader (shared Wd)).1 (handles Wd ++ [(Reader (shared Wd)).2])
         (written Wd)).
Proof.
  intros [[Ho He Hb Hi Hhs Hh] Htr]. split.
  - split; simpl; try done.
    + rewrite !length_app. simpl. lia.
    + intros i r Hir. apply lookup_app_Some in Hir as [Hir|[Hge Hir]].
      * destruct (Hh i r Hir) as (? & ? & e & Hie & ?). split; [done|].
        split; [done|]. exists e. split; [|done]. by apply lookup_app_l_Some.
      * apply list_lookup_singleton_Some in Hir as [Hi0 <-]. simpl.
        assert (i = length (handles Wd)) as -> by lia.
        split; [unfold len; lia|]. split; [lia|]. exists 0. split.
        -- rewrite Hhs. by apply list_lookup_middle.
        -- right; left. done.
  - unfold trimmed, trim_min in *. simpl. rewrite foldl_app. simpl.
    unfold trim_pick at 1. case_bool_decide; lia.
Qed.

(** Assigning the entry of reader [i], whose own position moves along. *)
Lemma consistent_assign Wd i r r' e :
  consistent Wd → handles Wd !! i = Some r →
  id r' = id r → 0 ≤ pos r' ≤ len (written Wd) → tracks (shared Wd) r' e →
  assign (readerpos (shared Wd)) (id r') e
    = Ret (<[i := e]> (readerpos (shared Wd))) ∧
  consistent (mkWorld (set_readerpos (shared Wd) (<[i := e]> (readerpos (shared Wd))))
                (<[i := r']> (handles Wd)) (written Wd)).
Proof.
  intros [Ho He Hb Hi Hhs Hh] Hir Hid Hpos Ht.
  destruct (Hh i r Hir) as (Hidr & _ & e0 & Hie0 & _).
  apply lookup_lt_Some in Hie0 as Hlt. split.
  - unfold assign. rewrite Hid, Hidr, Nat2Z.id. apply decide_True.
    unfold len. lia.
  - split; simpl; try done.
    + by rewrite !length_insert.
    + intros j rj Hj. destruct (decide (i = j)) as [<-|Hne].
      * rewrite list_lookup_insert_eq in Hj by (rewrite Hhs; done).
        injection Hj as <-. split; [congruence|]. split; [done|].
        exists e. by rewrite list_lookup_insert_eq.
      * rewrite list_lookup_insert_ne in Hj by done.
        destruct (Hh j rj Hj) as (? & ? & ej & ? & ?). split; [done|].
        split; [done|]. exists ej. by rewrite list_lookup_insert_ne.
Qed.

Lemma item_written Wd p :
  consistent Wd → offset (shared Wd) ≤ p < len (written Wd) →
  ∃ x, item (shared Wd) p = Ret x ∧ written Wd !! Z.to_nat p = Some x.
Proof.
  intros [Ho He Hb Hi _ _] Hp. unfold item, index.
  rewrite wrap_id by int_lia. rewrite decide_True by lia.
  rewrite Hi, lookup_drop.
  replace (Z.to_nat (offset (shared Wd)) + Z.to_nat (p - offset (shared Wd)))%nat
    with (Z.to_nat p) by lia.
  destruct (lookup_lt_is_Some_2 (written Wd) (Z.to_nat p)) as [x Hx].
  { unfold len in Hp. lia. }
  exists x. by rewrite Hx.
Qed.

Lemma item_discarded Wd p :
  consistent Wd → 0 ≤ p < offset (shared Wd) → item (shared Wd) p = Panic.
Proof.
  intros [Ho He Hb Hi _ _] Hp. unfold item, index.
  rewrite wrap_id by int_lia. by rewrite decide_False by lia.
Qed.

(** [doRead] on a retained position: the item at that global position,
    the reader one further, its entry assigned, the buffer trimmed. *)
Lemma doRead_inv Wd i r :
  inv Wd → handles Wd !! i = Some r →
  offset (shared Wd) ≤ pos r < len (written Wd) →
  ∃ x w', doRead r (shared Wd) = Ret (x, set_pos r (pos r + 1), w') ∧
    written Wd !! Z.to_nat (pos r) = Some x ∧
    inv (mkWorld w' (<[i := set_pos r (pos r + 1)]> (handles Wd)) (written Wd)) ∧
    readerpos w' = <[i := pos r + 1]> (readerpos (shared Wd)) ∧
    closed w' = closed (shared Wd) ∧
    zero w' = zero (shared Wd) ∧ zerotype w' = zerotype (shared Wd).
Proof.
  intros [HC _] Hir Hp.
  destruct (item_written Wd (pos r) HC Hp) as (x & Hx & Hwx).
  pose proof (inv_bound _ HC) as Hb. pose proof (inv_offset _ HC) as Ho.
  destruct (consistent_assign Wd i r (set_pos r (pos r + 1)) (pos r + 1) HC Hir)
    as [Has HC']; simpl; [done|lia| |].
  { right; right. simpl. split; [done|lia]. }
  destruct (trim_inv _ _ _ HC') as (w' & Htrim & Hinv & _ & Hrp & Hcl & Hz & Hzt).
  exists x, w'. unfold doRead. rewrite Hx. simpl.
  rewrite wrap_id by int_lia. simpl in Has. rewrite Has. simpl.
  rewrite Htrim. simpl. done.
Qed.

(** [doRead] below the offset indexes [items] out of range. *)
Lemma doRead_discarded Wd r :
  consistent Wd → 0 ≤ pos r < offset (shared Wd) →
  doRead r (shared Wd) = Panic.
Proof.
  intros HC Hp. unfold doRead. by rewrite (item_discarded Wd (pos r) HC Hp).
Qed.

Lemma Dispose_inv Wd i r :
  inv Wd → handles Wd !! i = Some r →
  ∃ w', Dispose r (shared Wd) = Ret w' ∧
    inv (mkWorld w' (handles Wd) (written Wd)) ∧
    readerpos w' = <[i := -1]> (readerpos (shared Wd)) ∧
    closed w' = closed (shared Wd) ∧
    zero w' = zero (shared Wd) ∧ zerotype w' = zerotype (shared Wd).
Proof.
  intros [HC _] Hir.
  destruct (inv_handle _ HC i r Hir) as (_ & Hpos & _).
  destruct (consistent_assign Wd i r r (-1) HC Hir) as [Has HC']; [done|done|by left|].
  rewrite (list_insert_id (handles Wd) i r Hir) in HC'.
  destruct (trim_inv _ _ _ HC') as (w' & Htrim & Hinv & _ & Hrp & Hcl & Hz & Hzt).
  exists w'. unfold Dispose. rewrite Has. simpl. by rewrite Htrim.
Qed.

(** *** Reading through reader [i] *)

(** A read that finds nothing leaves the whole state as it is. *)
Lemma NBRead_step_nothing Wd i r :
  inv Wd → handles Wd !! i = Some r → len (written Wd) ≤ pos r →
  step Wd (OpNBRead i) = Ret (Wd, Got (zero (shared Wd)) false).
Proof.
  intros [HC _] Hir Hp. unfold step, handle. rewrite Hir. simpl.
  rewrite NBRead_nothing by by rewrite consistent_streamlen.
  simpl. rewrite list_insert_id by done. by destruct Wd.
Qed.

(** A read that finds an item: it is the item at the reader's global
    position, and the reader moves one position on. *)
Lemma NBRead_step_item Wd i r :
  inv Wd → handles Wd !! i = Some r →
  offset (shared Wd) ≤ pos r < len (written Wd) →
  ∃ x Wd', step Wd (OpNBRead i) = Ret (Wd', Got x true) ∧
    written Wd !! Z.to_nat (pos r) = Some x ∧
    inv Wd' ∧ written Wd' = written Wd ∧
    handles Wd' = <[i := set_pos r (pos r + 1)]> (handles Wd) ∧
    readerpos (shared Wd') = <[i := pos r + 1]> (readerpos (shared Wd)) ∧
    closed (shared Wd') = closed (shared Wd) ∧
    zero (shared Wd') = zero (shared Wd) ∧
    zerotype (shared Wd') = zerotype (shared Wd).
Proof.
  intros Hinv Hir Hp.
  destruct (doRead_inv Wd i r Hinv Hir Hp)
    as (x & w' & Hdo & Hx & Hinv' & Hrp & Hcl & Hz & Hzt).
  exists x, (mkWorld w' (<[i := set_pos r (pos r + 1)]> (handles Wd)) (written Wd)).
  split; [|done]. unfold step, handle. rewrite Hir. simpl.
  rewrite NBRead_doRead by (rewrite consistent_streamlen by apply Hinv; lia).
  by rewrite Hdo.
Qed.

(** A read below the offset (which only a disposed-of reader can attempt)
    panics. *)
Lemma NBRead_step_discarded Wd i r :
  inv Wd → handles Wd !! i = Some r → pos r < offset (shared Wd) →
  step Wd (OpNBRead i) = Panic.
Proof.
  intros [HC _] Hir Hp. unfold step, handle. rewrite Hir. simpl.
  destruct (inv_handle _ HC i r Hir) as (_ & Hpos & _).
  pose proof (inv_end _ HC).
  rewrite NBRead_doRead by (rewrite consistent_streamlen by done; lia).
  by rewrite (doRead_discarded Wd r HC) by lia.
Qed.

Lemma Read_step_NBRead Wd i ctx r :
  handles Wd !! i = Some r → ctx ≠ Some true →
  pos r < streamlen (shared Wd) ∨ closed (shared Wd) = true →
  step Wd (OpRead i ctx) = step Wd (OpNBRead i).
Proof.
  intros Hir Hctx Hready. unfold step, handle. rewrite Hir. simpl.
  by rewrite Read_NBRead.
Qed.

Lemma Read_step_cancelled Wd i r :
  handles Wd !! i = Some r →
  step Wd (OpRead i (Some true)) = Ret (Wd, Got (zero (shared Wd)) false).
Proof.
  intros Hir. unfold step, handle. rewrite Hir. simpl.
  rewrite Read_cancelled. simpl. rewrite list_insert_id by done. by destruct Wd.
Qed.

(** *** Every call *)

Lemma after_Ret Wd op Wd' res : step Wd op = Ret (Wd', res) → after Wd op = Wd'.
Proof. unfold after. by intros ->. Qed.

Lemma result_of_Ret Wd op Wd' res :
  step Wd op = Ret (Wd', res) → result_of Wd op = Ret res.
Proof. unfold result_of. by intros ->. Qed.

Lemma after_Panic Wd op : step Wd op = Panic → after Wd op = Wd.
Proof. unfold after. by intros ->. Qed.


(** Only [Write] extends the sequence of written items, by its argument. *)
Lemma written_after Wd op :
  written (after Wd op) = written Wd ∨
  ∃ x, op = OpWrite x ∧ written (after Wd op) = written Wd ++ [x].
Proof.
  unfold after, step, handle. destruct op as [x| | |i ctx|i|i]; simpl.
  - destruct (Write _ _); simpl; eauto.
  - by left.
  - by left.
  - destruct (handles Wd !! i); simpl; [|by left].
    destruct (Read _ _ _) as [[[[] ?] ?]| |]; simpl; by left.
  - destruct (handles Wd !! i); simpl; [|by left].
    destruct (NBRead _ _) as [[[[] ?] ?]| |]; simpl; by left.
  - destruct (handles Wd !! i); simpl; [|by left].
    destruct (Dispose _ _); simpl; by left.
Qed.

Lemma written_after_len Wd op : len (written Wd) ≤ len (written (after Wd op)).
Proof.
  destruct (written_after Wd op) as [->|(x & _ & ->)]; [done|].
  rewrite len_app. int_lia.
Qed.

(** Reads through reader [i], whatever the context: the call changes
    nothing, or it is a successful [NBRead]. *)
Lemma read_step Wd i r op :
  inv Wd → handles Wd !! i = Some r →
  op = OpNBRead i ∨ (∃ ctx, op = OpRead i ctx) →
  (after Wd op = Wd ∧ ∀ x, result_of Wd op ≠ Ret (Got x true)) ∨
  (offset (shared Wd) ≤ pos r < len (written Wd) ∧
   step Wd op = step Wd (OpNBRead i)).
Proof.
  intros Hinv Hir Hop.
  assert (∀ Wd' z, step Wd op = Ret (Wd', Got z false) → Wd' = Wd →
    after Wd op = Wd ∧ ∀ x, result_of Wd op ≠ Ret (Got x true)) as Hnothing.
  { intros Wd' z Hst ->. split; [by eapply after_Ret|].
    intros x. by rewrite (result_of_Ret _ _ _ _ Hst). }
  assert (step Wd op = Panic ∨ step Wd op = Blocked →
    after Wd op = Wd ∧ ∀ x, result_of Wd op ≠ Ret (Got x true)) as Hstuck.
  { unfold after, result_of. intros [-> | ->]; done. }
  pose proof Hinv as [HC _]. pose proof (consistent_streamlen _ HC) as Hsl.
  destruct (inv_handle _ HC i r Hir) as (_ & Hpos & _).
  assert (step Wd (OpNBRead i) = Panic ∨
          step Wd (OpNBRead i) = Ret (Wd, Got (zero (shared Wd)) false) ∨
          offset (shared Wd) ≤ pos r < len (written Wd)) as HNB.
  { destruct (decide (len (written Wd) ≤ pos r)).
    { right; left. by eapply NBRead_step_nothing. }
    destruct (decide (pos r < offset (shared Wd))).
    { left. by eapply NBRead_step_discarded. }
    right; right. lia. }
  destruct Hop as [->|[ctx ->]].
  { destruct HNB as [?|[?|?]]; [left; by apply Hstuck; left|left; by eapply Hnothing|by right]. }
  destruct (decide (ctx = Some true)) as [->|Hctx].
  { left. eapply Hnothing; [by eapply Read_step_cancelled|done]. }
  destruct (decide (pos r < len (written Wd) ∨ closed (shared Wd) = true)) as [Hready|Hnot].
  { rewrite <-Hsl in Hready.
    rewrite (Read_step_NBRead Wd i ctx r Hir Hctx Hready) in *.
    destruct HNB as [HP|[HN|?]]; [|left; by eapply Hnothing|by right].
    left. unfold after, result_of.
    rewrite (Read_step_NBRead Wd i ctx r Hir Hctx Hready), HP. done. }
  left. apply Hstuck. unfold step, handle. rewrite Hir. simpl.
  assert (closed (shared Wd) = false) as Hc.
  { apply not_true_is_false. intros Hc. apply Hnot. by right. }
  destruct ctx as [[]|]; [done| |].
  - right. rewrite Read_blocked; [done|lia|done].
  - left. rewrite Read_nil; [done|lia|done].
Qed.

(** [closed] is set by [Close] alone and reset by nothing; [zero] and
    [zerotype] are never assigned. *)
Lemma step_frame Wd op :
  closed (shared (after Wd op)) =
    match op with OpClose => true | _ => closed (shared Wd) end ∧
  zero (shared (after Wd op)) = zero (shared Wd) ∧
  zerotype (shared (after Wd op)) = zerotype (shared Wd).
Proof.
  unfold after, step, handle. destruct op as [x| | |i ctx|i|i]; simpl; try done.
  - rewrite Write_writable. destruct (writable _ _); [|done].
    destruct (trim _) as [w'| |] eqn:Htrim; simpl; [|done..].
    by destruct (trim_frame _ _ Htrim) as (_ & ? & ? & ?).
  - destruct (handles Wd !! i) as [r|]; simpl; [|done].
    unfold Read. destruct (Read_cond _ _ _) as [[]| |]; simpl; [done| |done..].
    destruct (Read_done _ _ _); simpl; [done|].
    destruct (doRead _ _) as [[[x r'] w']| |] eqn:Hdo; simpl; [|done..].
    by apply doRead_frame in Hdo.
  - destruct (handles Wd !! i) as [r|]; simpl; [|done].
    unfold NBRead. case_bool_decide; simpl; [done|].
    destruct (doRead _ _) as [[[x r'] w']| |] eqn:Hdo; simpl; [|done..].
    by apply doRead_frame in Hdo.
  - destruct (handles Wd !! i) as [r|]; simpl; [|done].
    unfold Dispose. destruct (assign _ _ _); simpl; [|done..].
    destruct (trim _) as [w'| |] eqn:Htrim; simpl; [|done..].
    by destruct (trim_frame _ _ Htrim) as (_ & ? & ? & ?).
Qed.

Lemma closed_after Wd op :
  closed (shared Wd) = true → closed (shared (after Wd op)) = true.
Proof.
  intros Hc. destruct (step_frame Wd op) as (-> & _). by destruct op.
Qed.

(** A call that is not a read through reader [i] leaves that reader as it
    is. *)
Lemma handles_after_other Wd op i r :
  reads_of i op = false → handles Wd !! i = Some r →
  handles (after Wd op) !! i = Some r.
Proof.
  intros Hop Hir. unfold after, step, handle.
  destruct op as [x| | |j ctx|j|j]; simpl in *.
  - by destruct (Write _ _).
  - done.
  - by apply lookup_app_l_Some.
  - apply bool_decide_eq_false in Hop.
    destruct (handles Wd !! j); simpl; [|done].
    destruct (Read _ _ _) as [[[[] ?] ?]| |]; simpl; [|done..].
    by rewrite list_lookup_insert_ne.
  - apply bool_decide_eq_false in Hop.
    destruct (handles Wd !! j); simpl; [|done].
    destruct (NBRead _ _) as [[[[] ?] ?]| |]; simpl; [|done..].
    by rewrite list_lookup_insert_ne.
  - destruct (handles Wd !! j); simpl; [|done].
    by destruct (Dispose _ _).
Qed.

(** What one call does to reader [i]: nothing, or it hands it the item at
    its global position and moves it one position on. *)
Lemma step_reader Wd op i r :
  inv Wd → handles Wd !! i = Some r →
  (handles (after Wd op) !! i = Some r ∧
   received i (op, result_of Wd op) = []) ∨
  (∃ x, handles (after Wd op) !! i = Some (set_pos r (pos r + 1)) ∧
   received i (op, result_of Wd op) = [x] ∧
   written Wd !! Z.to_nat (pos r) = Some x ∧
   offset (shared Wd) ≤ pos r < len (written Wd)).
Proof.
  intros Hinv Hir. destruct (reads_of i op) eqn:Hop.
  - assert (op = OpNBRead i ∨ (∃ ctx, op = OpRead i ctx)) as Hop'.
    { destruct op; simpl in Hop; try done;
        apply bool_decide_eq_true in Hop as ->; eauto. }
    destruct (read_step Wd i r op Hinv Hir Hop') as [[Hsame Hres]|[Hp Hst]].
    + left. rewrite Hsame. split; [done|]. simpl. rewrite Hop.
      destruct (result_of Wd op) as [[| |x []]| |]; try done. by destruct (Hres x).
    + right. destruct (NBRead_step_item Wd i r Hinv Hir Hp)
        as (x & Wd' & HNB & Hx & _ & _ & Hhs & _).
      rewrite <-Hst in HNB. exists x.
      rewrite (after_Ret _ _ _ _ HNB), (result_of_Ret _ _ _ _ HNB), Hhs. simpl.
      rewrite Hop. split; [|done].
      apply list_lookup_insert_eq. by eapply lookup_lt_Some.
  - left. split; [by apply handles_after_other|]. simpl. rewrite Hop.
    by destruct (result_of Wd op) as [[| |x []]| |].
Qed.

(** A reader stays attached until it is disposed of. *)
Lemma step_attached Wd op i :
  inv Wd → attached Wd i → (∀ j, op = OpDispose j → j ≠ i) →
  attached (after Wd op) i.
Proof.
  intros Hinv (r & e & Hir & Hie & He) Hop. unfold attached.
  pose proof (inv_offset _ (proj1 Hinv)) as Ho.
  destruct op as [x| | |j ctx|j|j].
  - exists r, e. split; [by apply handles_after_other|]. split; [|done].
    unfold after, step. rewrite Write_writable.
    destruct (writable _ _); [|done].
    destruct (trim _) as [w'| |] eqn:Htrim; simpl; [|done..].
    destruct (trim_frame _ _ Htrim) as (-> & _). done.
  - by exists r, e.
  - exists r, e. split; [by apply handles_after_other|].
    split; [|done]. simpl. by apply lookup_app_l_Some.
  - destruct (handles Wd !! j) as [rj|] eqn:Hjr.
    + destruct (read_step Wd j rj (OpRead j ctx) Hinv Hjr) as [[-> _]|[Hp Hst]];
        [eauto|by exists r, e|].
      destruct (NBRead_step_item Wd j rj Hinv Hjr Hp)
        as (x & Wd' & HNB & _ & _ & _ & Hhs & Hrp & _).
      rewrite <-Hst in HNB. rewrite (after_Ret _ _ _ _ HNB), Hhs, Hrp.
      destruct (decide (j = i)) as [->|Hne].
      * exists (set_pos rj (pos rj + 1)), (pos rj + 1).
        rewrite !list_lookup_insert_eq by by eapply lookup_lt_Some.
        unfold active. split; [done|]. split; [done|lia].
      * exists r, e. by rewrite !list_lookup_insert_ne.
    + rewrite after_Panic; [by exists r, e|]. unfold step, handle. by rewrite Hjr.
  - destruct (handles Wd !! j) as [rj|] eqn:Hjr.
    + destruct (read_step Wd j rj (OpNBRead j) Hinv Hjr) as [[-> _]|[Hp Hst]];
        [eauto|by exists r, e|].
      destruct (NBRead_step_item Wd j rj Hinv Hjr Hp)
        as (x & Wd' & HNB & _ & _ & _ & Hhs & Hrp & _).
      rewrite (after_Ret _ _ _ _ HNB), Hhs, Hrp.
      destruct (decide (j = i)) as [->|Hne].
      * exists (set_pos rj (pos rj + 1)), (pos rj + 1).
        rewrite !list_lookup_insert_eq by by eapply lookup_lt_Some.
        unfold active. split; [done|]. split; [done|lia].
      * exists r, e. by rewrite !list_lookup_insert_ne.
    + rewrite after_Panic; [by exists r, e|]. unfold step, handle. by rewrite Hjr.
  - assert (j ≠ i) as Hne by by apply Hop.
    destruct (handles Wd !! j) as [rj|] eqn:Hjr.
    + destruct (Dispose_inv Wd j rj Hinv Hjr) as (w' & HD & _ & Hrp & _).
      unfold after, step, handle. rewrite Hjr. simpl. rewrite HD. simpl.
      exists r, e. rewrite Hrp. by rewrite list_lookup_insert_ne.
    + rewrite after_Panic; [by exists r, e|]. unfold step, handle. by rewrite Hjr.
Qed.

(** The panics of a call, in a state of the invariant with room for one
    more item: a [Write] of an item that is not assignable (raised before
    the lock is taken), a method call through a reader that does not exist,
    a [Read] with a nil context that has to wait (raised in the loop
    condition), and a read through a reader whose position has been trimmed
    away (raised by [item], the first statement of [doRead]).  Each is
    raised before the method has assigned anything. *)
Lemma step_panic Wd op :
  inv Wd → len (written Wd) < int_max → step Wd op = Panic →
  (∃ x, op = OpWrite x ∧ writable (shared Wd) x = false) ∨
  (∃ i, handles Wd !! i = None ∧ (reads_of i op = true ∨ op = OpDispose i)) ∨
  (∃ i r, handles Wd !! i = Some r ∧ op = OpRead i None ∧
          len (written Wd) ≤ pos r ∧ closed (shared Wd) = false) ∨
  (∃ i r, handles Wd !! i = Some r ∧ reads_of i op = true ∧
          pos r < offset (shared Wd)).
Proof.
  intros Hinv Hb Hst.
  assert (∀ i r, handles Wd !! i = Some r → step Wd (OpNBRead i) = Panic →
            pos r < offset (shared Wd)) as HNB.
  { intros i r Hir HP. destruct (decide (len (written Wd) ≤ pos r)) as [Hge|Hlt].
    { by rewrite (NBRead_step_nothing Wd i r) in HP. }
    destruct (decide (pos r < offset (shared Wd))) as [|Hge]; [done|].
    destruct (NBRead_step_item Wd i r Hinv Hir) as (x & Wd' & HNB & _); [lia|].
    congruence. }
  destruct op as [x| | |i ctx|i|i]; try done.
  - left. exists x. split; [done|]. destruct (writable (shared Wd) x) eqn:Hw; [|done].
    destruct (Write_inv Wd x Hinv Hw Hb) as (w' & HW & _).
    unfold step in Hst. by rewrite HW in Hst.
  - right. destruct (handles Wd !! i) as [r|] eqn:Hir.
    + right. destruct (decide (ctx = Some true)) as [->|Hctx].
      { by rewrite (Read_step_cancelled Wd i r) in Hst. }
      pose proof (consistent_streamlen _ (proj1 Hinv)) as Hsl.
      destruct (decide (pos r < len (written Wd) ∨ closed (shared Wd) = true))
        as [Hready|Hnot].
      * right. exists i, r. split; [done|]. split; [simpl; by apply bool_decide_eq_true|].
        apply (HNB i r Hir). rewrite <-Hst. symmetry.
        apply (Read_step_NBRead Wd i ctx r); [done..|]. by rewrite Hsl.
      * left. exists i, r. split; [done|].
        assert (closed (shared Wd) = false) as Hc.
        { apply not_true_is_false. intros Hc. apply Hnot. by right. }
        destruct ctx as [[]|]; [done| |split; [done|split; [lia|done]]].
        unfold step, handle in Hst. rewrite Hir in Hst. simpl in Hst.
        rewrite Read_blocked in Hst; [done|lia|done].
    + left. exists i. split; [done|]. left. simpl. by apply bool_decide_eq_true.
  - right. destruct (handles Wd !! i) as [r|] eqn:Hir.
    + right; right. exists i, r. split; [done|].
      split; [simpl; by apply bool_decide_eq_true|]. by apply (HNB i r).
    + left. exists i. split; [done|]. left. simpl. by apply bool_decide_eq_true.
  - right. left. exists i. destruct (handles Wd !! i) as [r|] eqn:Hir; [|by split; [|right]].
    destruct (Dispose_inv Wd i r Hinv Hir) as (w' & HD & _).
    unfold step, handle in Hst. rewrite Hir in Hst. simpl in Hst. by rewrite HD in Hst.
Qed.

Lemma inv_after Wd op :
  inv Wd → len (written (after Wd op)) ≤ int_max → inv (after Wd op).
Proof.
  intros Hinv Hb. destruct op as [x| | |i ctx|i|i].
  - destruct (writable (shared Wd) x) eqn:Hw.
    + destruct (decide (len (written Wd) < int_max)) as [Hlt|Hge].
      * destruct (Write_inv Wd x Hinv Hw Hlt) as (w' & HW & Hinv' & _).
        unfold after, step. rewrite HW. done.
      * revert Hb. unfold after, step.
        destruct (Write _ _); simpl; [|done..].
        rewrite len_app. unfold len at 2. simpl. lia.
    + unfold after, step. by rewrite Write_writable, Hw.
  - by apply Close_inv.
  - by apply Reader_inv.
  - destruct (handles Wd !! i) as [r|] eqn:Hir.
    + destruct (read_step Wd i r (OpRead i ctx) Hinv Hir) as [[-> _]|[Hp Hst]];
        [eauto|done|].
      destruct (NBRead_step_item Wd i r Hinv Hir Hp) as (x & Wd' & HNB & _ & Hinv' & _).
      rewrite <-Hst in HNB. by rewrite (after_Ret _ _ _ _ HNB).
    + unfold after, step, handle. by rewrite Hir.
  - destruct (handles Wd !! i) as [r|] eqn:Hir.
    + destruct (read_step Wd i r (OpNBRead i) Hinv Hir) as [[-> _]|[Hp Hst]];
        [eauto|done|].
      destruct (NBRead_step_item Wd i r Hinv Hir Hp) as (x & Wd' & HNB & _ & Hinv' & _).
      by rewrite (after_Ret _ _ _ _ HNB).
    + unfold after, step, handle. by rewrite Hir.
  - destruct (handles Wd !! i) as [r|] eqn:Hir.
    + destruct (Dispose_inv Wd i r Hinv Hir) as (w' & HD & Hinv' & _).
      unfold after, step, handle. rewrite Hir. simpl. by rewrite HD.
    + unfold after, step, handle. by rewrite Hir.
Qed.

(** The invariant holds in every reachable state whose stream is shorter
    than the range of [int]. *)
Lemma reachable_inv Wd : reachable Wd → len (written Wd) ≤ int_max → inv Wd.
Proof.
  induction 1 as [z|Wd op _ IH]; intros Hb; [apply inv_init|].
  apply inv_after; [|done]. apply IH.
  pose proof (written_after_len Wd op). lia.
Qed.


End invariant.

(** ** Runs *)

Section runs.
Context {Item : Type} `{!GoValue Item}.
Implicit Types (w : W) (r : R) (Wd : World) (x : Item).

Lemma run_snoc Wd ops op : run Wd (ops ++ [op]) = after (run Wd ops) op.
Proof. unfold run. by rewrite foldl_app. Qed.


Lemma trace_app Wd ops ops' :
  trace Wd (ops ++ ops') = trace Wd ops ++ trace (run Wd ops) ops'.
Proof.
  revert Wd. induction ops as [|op ops IH]; intros Wd; simpl; [done|].
  by rewrite IH.
Qed.

Lemma reachable_run Wd ops : reachable Wd → reachable (run Wd ops).
Proof.
  intros HR. induction ops as [|op ops IH] using rev_ind; [done|].
  rewrite run_snoc. by constructor.
Qed.

Lemma written_run_len Wd ops : len (written Wd) ≤ len (written (run Wd ops)).
Proof.
  induction ops as [|op ops IH] using rev_ind; [done|].
  rewrite run_snoc. pose proof (written_after_len (run Wd ops) op). lia.
Qed.

Lemma zero_run Wd ops : zero (shared (run Wd ops)) = zero (shared Wd).
Proof.
  induction ops as [|op ops IH] using rev_ind; [done|].
  rewrite run_snoc. by destruct (step_frame (run Wd ops) op) as (_ & -> & _).
Qed.

Lemma closed_run Wd ops :
  closed (shared Wd) = true → closed (shared (run Wd ops)) = true.
Proof.
  intros Hc. induction ops as [|op ops IH] using rev_ind; [done|].
  rewrite run_snoc. by apply closed_after.
Qed.

(** An attached reader stands at or above the offset. *)
Lemma attached_pos Wd i r :
  inv Wd → attached Wd i → handles Wd !! i = Some r →
  offset (shared Wd) ≤ pos r ≤ len (written Wd).
Proof.
  intros [HC _] (r' & e & Hir' & Hie & He) Hir.
  destruct (inv_handle _ HC i r Hir) as (_ & Hpos & e' & Hie' & Ht).
  assert (e' = e) as -> by congruence.
  unfold tracks, active in *. lia.
Qed.

(** The three ways a waiting read through an attached reader can go:
    end of data, no data yet, or the next item. *)
Lemma reading_step Wd i r op :
  inv Wd → attached Wd i → handles Wd !! i = Some r → reading i op →
  (after Wd op = Wd ∧ result_of Wd op = Ret (Got (zero (shared Wd)) false) ∧
   len (written Wd) ≤ pos r ∧ (closed (shared Wd) = true ∨ op = OpNBRead i)) ∨
  (after Wd op = Wd ∧
   (result_of Wd op = Blocked ∨ (result_of Wd op = Panic ∧ op = OpRead i None)) ∧
   len (written Wd) ≤ pos r ∧ closed (shared Wd) = false) ∨
  (∃ x, result_of Wd op = Ret (Got x true) ∧
   written Wd !! Z.to_nat (pos r) = Some x ∧ pos r < len (written Wd) ∧
   handles (after Wd op) !! i = Some (set_pos r (pos r + 1)) ∧
   written (after Wd op) = written Wd).
Proof.
  intros Hinv Hatt Hir Hop.
  pose proof (attached_pos Wd i r Hinv Hatt Hir) as Hpos.
  pose proof (consistent_streamlen _ (proj1 Hinv)) as Hsl.
  assert (pos r < len (written Wd) →
    ∃ x, result_of Wd (OpNBRead i) = Ret (Got x true) ∧
      written Wd !! Z.to_nat (pos r) = Some x ∧ pos r < len (written Wd) ∧
      handles (after Wd (OpNBRead i)) !! i = Some (set_pos r (pos r + 1)) ∧
      written (after Wd (OpNBRead i)) = written Wd) as Hitem.
  { intros Hlt. destruct (NBRead_step_item Wd i r Hinv Hir)
      as (x & Wd' & HNB & Hx & _ & Hw & Hhs & _); [lia|].
    exists x. rewrite (after_Ret _ _ _ _ HNB), (result_of_Ret _ _ _ _ HNB), Hhs.
    repeat split; try done.
    apply list_lookup_insert_eq. by eapply lookup_lt_Some. }
  assert (len (written Wd) ≤ pos r →
    after Wd (OpNBRead i) = Wd ∧
    result_of Wd (OpNBRead i) = Ret (Got (zero (shared Wd)) false)) as Hnone.
  { intros Hge. pose proof (NBRead_step_nothing Wd i r Hinv Hir Hge) as HNB.
    by rewrite (after_Ret _ _ _ _ HNB), (result_of_Ret _ _ _ _ HNB). }
  destruct (decide (pos r < len (written Wd))) as [Hlt|Hge].
  - right; right. destruct Hop as [->|(ctx & Hctx & ->)]; [by apply Hitem|].
    unfold after, result_of.
    rewrite (Read_step_NBRead Wd i ctx r Hir Hctx) by (left; lia).
    by apply Hitem.
  - destruct Hop as [->|(ctx & Hctx & ->)].
    { left. destruct Hnone as [? ?]; [lia|]. repeat split; try done; [lia|by right]. }
    destruct (closed (shared Wd)) eqn:Hc.
    + left. unfold after, result_of.
      rewrite (Read_step_NBRead Wd i ctx r Hir Hctx) by by right.
      destruct Hnone as [? ?]; [lia|]. repeat split; try done; [lia|by left].
    + right; left. unfold after, result_of, step, handle. rewrite Hir. simpl.
      destruct ctx as [[]|]; [done| |].
      * rewrite Read_blocked by (done || lia). repeat split; try done; [by left|lia].
      * rewrite Read_nil by (done || lia). repeat split; try done; [by right|lia].
Qed.

(** A reader at the end of the stream stays where it is, and the stream as
    long as it is, until the next [Write]. *)
Lemma idle_run Wd ops i r :
  inv Wd → handles Wd !! i = Some r → len (written Wd) ≤ pos r →
  Forall (λ op, is_write op = false) ops →
  inv (run Wd ops) ∧ written (run Wd ops) = written Wd ∧
  handles (run Wd ops) !! i = Some r.
Proof.
  intros Hinv Hir Hp. induction ops as [|op ops IH] using rev_ind; intros Hops; [done|].
  rewrite Forall_app, Forall_singleton in Hops. destruct Hops as [Hops Hop].
  destruct (IH Hops) as (Hinv' & Hw & Hir'). rewrite run_snoc.
  assert (written (after (run Wd ops) op) = written Wd) as Hw'.
  { destruct (written_after (run Wd ops) op) as [Heq|(x & Heq & _)];
      [by rewrite Heq|]. subst op. simpl in Hop. discriminate Hop. }
  split; [|split; [done|]].
  - apply inv_after; [done|]. rewrite Hw'. apply (inv_bound _ (proj1 Hinv)).
  - destruct (step_reader (run Wd ops) op i r Hinv' Hir') as [[? _]|(x & _ & _ & _ & Hlt)];
      [done|]. rewrite Hw in Hlt. lia.
Qed.

Lemma results_other i (op : @Op Item) (res : outcome Res) :
  reads_of i op = false → results i (op, res) = [].
Proof. intros Hop. simpl. rewrite Hop. by destruct res as [[]| |]. Qed.

Lemma reads_in_cons i (op : @Op Item) ops :
  reads_in i (op :: ops) =
    if reads_of i op then S (reads_in i ops) else reads_in i ops.
Proof.
  unfold reads_in. destruct (reads_of i op) eqn:Hop.
  - by rewrite filter_cons_True.
  - rewrite filter_cons_False; [done|]. by rewrite Hop.
Qed.

(** Reading a closed stream to its end: the reads through an attached
    reader return the items from its position on, in order, and then the
    zero value with [false], whatever the other readers do meanwhile; none
    of these reads panics. *)
Lemma drain Wd ops i r N :
  inv Wd → closed (shared Wd) = true → attached Wd i →
  handles Wd !! i = Some r →
  Forall (λ op, is_write op = false ∧ undisturbed i op) ops →
  (reads_in i ops ≤ N)%nat →
  trace Wd ops ≫= results i =
    take (reads_in i ops)
      (((λ x, (x, true)) <$> drop (Z.to_nat (pos r)) (written Wd))
       ++ replicate N (zero (shared Wd), false)) ∧
  ∀ op, (op, Panic) ∈ trace Wd ops → reads_of i op = false.
Proof.
  revert Wd r N. induction ops as [|op ops IH]; intros Wd r N Hinv Hc Hatt Hir Hops HN.
  { split; [done|]. intros op Hin. by apply elem_of_nil in Hin. }
  apply Forall_cons in Hops as [(Hnw & Hnd & Hrd) Hops].
  assert (written (after Wd op) = written Wd) as Hw.
  { destruct (written_after Wd op) as [Heq|(x & Heq & _)]; [done|].
    subst op. discriminate Hnw. }
  assert (inv (after Wd op)) as Hinv'.
  { apply inv_after; [done|]. rewrite Hw. apply (inv_bound _ (proj1 Hinv)). }
  pose proof (closed_after Wd op Hc) as Hc'.
  pose proof (step_attached Wd op i Hinv Hatt Hnd) as Hatt'.
  destruct (step_frame Wd op) as (_ & Hz & _).
  pose proof (attached_pos Wd i r Hinv Hatt Hir) as Hpos.
  pose proof (inv_offset _ (proj1 Hinv)) as Ho.
  simpl trace. rewrite bind_cons, reads_in_cons in *.
  destruct (reads_of i op) eqn:Hop.
  - destruct N as [|N]; [lia|].
    destruct (reading_step Wd i r op Hinv Hatt Hir (Hrd eq_refl))
      as [(Hsame & Hres & Hge & _)|[(_ & _ & _ & Hopen)|(x & Hres & Hx & Hlt & Hir' & _)]].
    + rewrite Hres. simpl results. rewrite Hop. rewrite Hsame in *.
      destruct (IH Wd r N) as [IHres IHpanic]; [done..|lia|]. split.
      * rewrite IHres. rewrite drop_ge by (unfold len in Hge; lia). done.
      * intros op' [[= _ ?]|Hin]%elem_of_cons. by apply IHpanic.
    + congruence.
    + rewrite Hres. simpl results. rewrite Hop.
      destruct (IH (after Wd op) (set_pos r (pos r + 1)) (S N)) as [IHres IHpanic];
        [done..|lia|]. split.
      * rewrite IHres, Hw, Hz. simpl pos. rewrite (drop_S _ _ _ Hx). simpl.
        by replace (Z.to_nat (pos r + 1)) with (S (Z.to_nat (pos r))) by lia.
      * intros op' [[= _ ?]|Hin]%elem_of_cons. by apply IHpanic.
  - rewrite results_other by done. simpl.
    destruct (IH (after Wd op) r N) as [IHres IHpanic];
      [done..|by apply handles_after_other|done|done|]. split.
    + by rewrite IHres, Hw, Hz.
    + intros op' [[= -> _]|Hin]%elem_of_cons; [done|]. by apply IHpanic.
Qed.

(** *** Windows of the written sequence *)

Lemma window_nil (ws : list Item) a : window ws a a = [].
Proof. unfold window. by replace (a - a) with 0 by lia. Qed.

Lemma window_cons (ws : list Item) a b x :
  ws !! Z.to_nat a = Some x → 0 ≤ a < b →
  window ws a b = x :: window ws (a + 1) b.
Proof.
  intros Hx Hab. unfold window. rewrite (drop_S _ _ _ Hx).
  replace (Z.to_nat (b - a)) with (S (Z.to_nat (b - (a + 1)))) by lia.
  by replace (Z.to_nat (a + 1)) with (S (Z.to_nat a)) by lia.
Qed.

Lemma written_after_prefix Wd op : written Wd `prefix_of` written (after Wd op).
Proof.
  destruct (written_after Wd op) as [->|(x & _ & ->)]; [done|].
  by apply prefix_app_r.
Qed.

Lemma run_cons Wd op ops : run Wd (op :: ops) = run (after Wd op) ops.
Proof. done. Qed.

Lemma written_run_prefix Wd ops : written Wd `prefix_of` written (run Wd ops).
Proof.
  induction ops as [|op ops IH] using rev_ind; [done|].
  rewrite run_snoc. etrans; [done|]. apply written_after_prefix.
Qed.

(** What a reader is handed in a run: the items at the positions it moved
    over, in order. *)
Lemma received_run Wd ops i r :
  inv Wd → len (written (run Wd ops)) ≤ int_max → handles Wd !! i = Some r →
  ∃ r', handles (run Wd ops) !! i = Some r' ∧ pos r ≤ pos r' ∧
    trace Wd ops ≫= received i = window (written (run Wd ops)) (pos r) (pos r').
Proof.
  revert Wd r. induction ops as [|op ops IH]; intros Wd r Hinv Hb Hir.
  { exists r. split; [done|]. split; [done|]. by rewrite window_nil. }
  rewrite run_cons in *. simpl trace. rewrite bind_cons.
  assert (inv (after Wd op)) as Hinv'.
  { apply inv_after; [done|]. pose proof (written_run_len (after Wd op) ops). lia. }
  destruct (step_reader Wd op i r Hinv Hir) as [[Hir' ->]|(x & Hir' & -> & Hx & Hp)].
  - destruct (IH _ _ Hinv' Hb Hir') as (r' & ? & ? & ?). by exists r'.
  - destruct (IH _ _ Hinv' Hb Hir') as (r' & Hr' & Hle & Htr). simpl in Hle.
    exists r'. split; [done|]. split; [lia|]. rewrite Htr. simpl.
    pose proof (inv_offset _ (proj1 Hinv)).
    rewrite (window_cons _ (pos r) (pos r') x); [done| |lia].
    eapply prefix_lookup_Some; [done|].
    etrans; [apply (written_after_prefix Wd op)|apply written_run_prefix].
Qed.

(** *** One reader waiting on an open stream *)

Lemma writable_zerotype w w' x :
  zerotype w' = zerotype w → writable w' x = writable w x.
Proof. unfold writable. by intros ->. Qed.

Lemma trace_ops Wd ops (op : @Op Item) res : (op, res) ∈ trace Wd ops → op ∈ ops.
Proof.
  revert Wd. induction ops as [|op' ops IH]; intros Wd Hin; simpl in Hin.
  { by apply elem_of_nil in Hin. }
  apply elem_of_cons in Hin as [[= -> _]|Hin]; [apply list_elem_of_here|].
  apply list_elem_of_further. by eapply IH.
Qed.

(** While the stream is open, the blocking reads through an attached
    reader either wait or return the next item; they never return
    [false].  The only panic is that of a read with a nil context that
    finds nothing to read. *)
Lemma open_phase Wd pre rest i r :
  inv Wd → attached Wd i → handles Wd !! i = Some r →
  closed (shared Wd) = false →
  Forall (λ x, writable (shared Wd) x = true) rest →
  len (written Wd) + len rest ≤ int_max →
  Forall (λ op, by_writer op = true ∨ waits_on i op) pre →
  filter (λ op, by_writer op = true) pre = OpWrite <$> rest →
  ∃ r', inv (run Wd pre) ∧ attached (run Wd pre) i ∧
    handles (run Wd pre) !! i = Some r' ∧
    closed (shared (run Wd pre)) = false ∧
    written (run Wd pre) = written Wd ++ rest ∧
    pos r ≤ pos r' ∧
    trace Wd pre ≫= results i
      = (λ x, (x, true)) <$> window (written Wd ++ rest) (pos r) (pos r') ∧
    (∀ op, (op, Panic) ∈ trace Wd pre → op = OpRead i None).
Proof.
  revert Wd rest r.
  induction pre as [|op pre IH]; intros Wd rest r Hinv Hatt Hir Hc Hws Hb Hpre Hf.
  { symmetry in Hf. apply fmap_nil_inv in Hf as ->. exists r.
    rewrite app_nil_r, window_nil. split_and!; try done.
    intros op Hin. by apply elem_of_nil in Hin. }
  apply Forall_cons in Hpre as [Hop Hpre]. rewrite run_cons. simpl trace.
  rewrite bind_cons.
  destruct Hop as [Hbw|(ctx & Hctx & ->)].
  - rewrite filter_cons_True in Hf by done.
    destruct rest as [|x rest]; [done|]. injection Hf as -> Hf.
    apply Forall_cons in Hws as [Hwx Hws]. rewrite len_cons in Hb.
    destruct (Write_inv Wd x Hinv Hwx) as (w1 & HW & Hinv1 & Hrp & Hcl & Hz & Hzt);
      [int_lia|].
    assert (step Wd (OpWrite x)
              = Ret (mkWorld w1 (handles Wd) (written Wd ++ [x]), Done)) as Hst.
    { unfold step. by rewrite HW. }
    rewrite (after_Ret _ _ _ _ Hst), (result_of_Ret _ _ _ _ Hst).
    destruct (IH (mkWorld w1 (handles Wd) (written Wd ++ [x])) rest r)
      as (r' & ? & ? & ? & ? & Hw' & ? & Htr & Hpanic); simpl; try done.
    { destruct Hatt as (r0 & e & ? & ? & ?). exists r0, e. simpl. by rewrite Hrp. }
    { congruence. }
    { eapply Forall_impl; [done|]. intros y Hy. simpl in Hy.
      by rewrite (writable_zerotype (shared Wd)). }
    { rewrite len_snoc. lia. }
    exists r'. simpl in Hw', Htr. rewrite <-(assoc_L (++)) in Hw', Htr.
    split_and!; try done.
    intros op [[= _ ?]|Hin]%elem_of_cons. by apply Hpanic.
  - rewrite filter_cons_False in Hf by (simpl; done).
    assert (inv (after Wd (OpRead i ctx))) as Hinv'.
    { apply inv_after; [done|].
      destruct (written_after Wd (OpRead i ctx)) as [->|(x & [=] & _)]. int_lia. }
    assert (attached (after Wd (OpRead i ctx)) i) as Hatt'
      by (by apply step_attached).
    destruct (step_frame Wd (OpRead i ctx)) as (Hc' & _ & Hzt).
    destruct (reading_step Wd i r (OpRead i ctx) Hinv Hatt Hir)
      as [(_ & _ & _ & [?|[=]])|[(Hsame & Hres & _)|(x & Hres & Hx & Hlt & Hir' & Hw)]].
    + right. by exists ctx.
    + congruence.
    + rewrite Hsame in *.
      destruct (IH Wd rest r) as (r' & ? & ? & ? & ? & ? & ? & Htr & Hpanic);
        try done.
      exists r'. split_and!; try done.
      { rewrite <-Htr. by destruct Hres as [->|[-> _]]. }
      intros op [[= -> Hp]|Hin]%elem_of_cons; [|by apply Hpanic].
      destruct Hres as [Hres|[_ ?]]; [congruence|done].
    + destruct (IH (after Wd (OpRead i ctx)) rest (set_pos r (pos r + 1)))
        as (r' & ? & ? & ? & ? & Hw' & Hle & Htr & Hpanic); try done.
      { congruence. }
      { eapply Forall_impl; [done|]. intros y Hy. simpl in Hy.
        by rewrite (writable_zerotype (shared Wd)). }
      { by rewrite Hw. }
      simpl in Hle. rewrite Hw in Hw', Htr. simpl in Htr.
      pose proof (inv_offset _ (proj1 Hinv)).
      pose proof (attached_pos Wd i r Hinv Hatt Hir).
      exists r'. split_and!; try done; [lia| |].
      * rewrite Hres, Htr. simpl. rewrite bool_decide_true by done. simpl.
        rewrite (window_cons _ (pos r) (pos r') x); [done| |lia].
        by apply lookup_app_l_Some.
      * intros op [[= _ Hp]|Hin]%elem_of_cons; [congruence|by apply Hpanic].
Qed.

Lemma reads_in_app i (ops ops' : list (@Op Item)) :
  reads_in i (ops ++ ops') = (reads_in i ops + reads_in i ops')%nat.
Proof. unfold reads_in. by rewrite filter_app, length_app. Qed.

Lemma reads_in_replicate i ctx N :
  reads_in i (replicate N (@OpRead Item i ctx)) = N.
Proof.
  induction N as [|N IH]; [done|]. simpl replicate. rewrite reads_in_cons, IH.
  simpl. by rewrite bool_decide_true.
Qed.

(** The invariant holds all along a run. *)
Lemma inv_run Wd ops :
  inv Wd → len (written (run Wd ops)) ≤ int_max → inv (run Wd ops).
Proof.
  intros Hinv. induction ops as [|op ops IH] using rev_ind; intros Hb; [done|].
  rewrite run_snoc in *. pose proof (written_after_len (run Wd ops) op).
  apply inv_after; [|done]. apply IH. lia.
Qed.

(** A reader stays attached as long as it is not disposed of. *)
Lemma attached_run Wd ops i :
  inv Wd → len (written (run Wd ops)) ≤ int_max → attached Wd i →
  Forall (λ op, ∀ j, op = @OpDispose Item j → j ≠ i) ops →
  attached (run Wd ops) i.
Proof.
  intros Hinv Hb Hatt.
  induction ops as [|op ops IH] using rev_ind; intros Hops; [done|].
  rewrite Forall_app, Forall_singleton in Hops. destruct Hops as [Hops Hop].
  rewrite run_snoc in *. pose proof (written_after_len (run Wd ops) op).
  apply step_attached; [apply inv_run; [done|lia]|apply IH; [lia|done]|done].
Qed.

(** A read through an attached reader that has not reached the end of the
    stream, its context not cancelled, returns the item at the reader's
    position with [true] and moves the reader on by one. *)
Lemma reading_item Wd i r op :
  inv Wd → attached Wd i → handles Wd !! i = Some r → reading i op →
  pos r < streamlen (shared Wd) →
  ∃ x, written Wd !! Z.to_nat (pos r) = Some x ∧
    result_of Wd op = Ret (Got x true) ∧
    handles (after Wd op) !! i = Some (set_pos r (pos r + 1)).
Proof.
  intros Hinv Hatt Hir Hop Hlt.
  rewrite (consistent_streamlen _ (proj1 Hinv)) in Hlt.
  destruct (reading_step Wd i r op Hinv Hatt Hir Hop)
    as [(_ & _ & Hge & _)|[(_ & _ & Hge & _)|(x & Hres & Hx & _ & Hir' & _)]];
    [lia|lia|]. by exists x.
Qed.

(** [NBRead] again and again through an attached reader, nothing else
    happening meanwhile: the calls return the items from the reader's
    position to the end of the stream, in order, and from then on the zero
    value with [false]. *)
Lemma NBRead_run Wd i r n N :
  inv Wd → attached Wd i → handles Wd !! i = Some r → (n ≤ N)%nat →
  trace Wd (replicate n (OpNBRead i)) ≫= results i =
    take n (((λ x, (x, true)) <$> drop (Z.to_nat (pos r)) (written Wd))
            ++ replicate N (zero (shared Wd), false)).
Proof.
  revert Wd r N. induction n as [|n IH]; intros Wd r N Hinv Hatt Hir HN; [done|].
  destruct N as [|N]; [lia|].
  pose proof (attached_pos Wd i r Hinv Hatt Hir) as Hpos.
  pose proof (inv_offset _ (proj1 Hinv)) as Ho.
  assert (reading i (@OpNBRead Item i)) as Hop by by left.
  simpl replicate. simpl trace. rewrite bind_cons.
  destruct (decide (pos r < len (written Wd))) as [Hlt|Hge].
  - destruct (reading_step Wd i r _ Hinv Hatt Hir Hop)
      as [(_ & _ & Hge & _)|[(_ & _ & Hge & _)|(x & Hres & Hx & _ & Hir' & Hw)]];
      [lia|lia|].
    assert (inv (after Wd (OpNBRead i))) as Hinv'.
    { apply inv_after; [done|]. rewrite Hw. apply (inv_bound _ (proj1 Hinv)). }
    assert (attached (after Wd (OpNBRead i)) i) as Hatt'.
    { by apply step_attached. }
    destruct (step_frame Wd (OpNBRead i)) as (_ & Hz & _).
    rewrite Hres. simpl results. rewrite bool_decide_true by done.
    rewrite (IH _ (set_pos r (pos r + 1)) (S N) Hinv' Hatt' Hir') by lia.
    rewrite Hw, Hz. simpl pos. rewrite (drop_S _ _ _ Hx). simpl.
    by replace (Z.to_nat (pos r + 1)) with (S (Z.to_nat (pos r))) by lia.
  - pose proof (NBRead_step_nothing Wd i r Hinv Hir ltac:(lia)) as HNB.
    rewrite (after_Ret _ _ _ _ HNB), (result_of_Ret _ _ _ _ HNB).
    simpl results. rewrite bool_decide_true by done.
    rewrite (IH Wd r N Hinv Hatt Hir) by lia.
    rewrite drop_ge by (unfold len in Hge; lia). done.
Qed.

End runs.

(** ** Properties *)

Section properties.
Context {Item : Type} `{!GoValue Item}.
Implicit Types (w : W) (r : R) (Wd : World) (x : Item).

(** C10.  A [Read] whose context is cancelled, before the call or at a
    wake-up of the wait loop, returns the zero value and [false]; the
    reader's position and the whole shared state (buffer, offset, closed
    flag and the reader positions) are as before.  This holds in every
    state, so also when an item is waiting at the reader's position. *)
Theorem Read_cancelled_consumes_nothing (r : R) (w : W) :
  Read (Some true) r w = Ret (zero w, false, r, w) ∧
  ∀ (Wd : World) (i : nat),
    handles Wd !! i = Some r →
    step Wd (OpRead i (Some true)) = Ret (Wd, Got (zero (shared Wd)) false).
Proof.
  split; [apply Read_cancelled|]. intros Wd i Hir. by eapply Read_step_cancelled.
Qed.

(** C2, as the code has it.  [closed] is never reset: once it is true it
    is true after every call.  [Write] does not look at it: on a closed
    stream a [Write] of an assignable item returns, the item is appended at
    the end of the stream and [streamlen] grows by one. *)
Theorem Write_after_Close_appends (Wd : World) (x : Item) :
  reachable Wd → len (written Wd) < int_max →
  closed (shared Wd) = true → writable (shared Wd) x = true →
  (∀ op, closed (shared (after Wd op)) = true) ∧
  ∃ Wd', step Wd (OpWrite x) = Ret (Wd', Done) ∧
    written Wd' = written Wd ++ [x] ∧
    streamlen (shared Wd') = streamlen (shared Wd) + 1 ∧
    closed (shared Wd') = true.
Proof.
  intros HR Hb Hc Hw. split; [intros op; by apply closed_after|].
  assert (inv Wd) as Hinv by (apply reachable_inv; [done|lia]).
  destruct (Write_inv Wd x Hinv Hw Hb) as (w' & HW & Hinv' & _ & Hcl & _).
  eexists. split; [unfold step; by rewrite HW|]. simpl.
  split; [done|]. split; [|congruence].
  pose proof (consistent_streamlen _ (proj1 Hinv')) as Hsl'. simpl in Hsl'.
  rewrite Hsl', (consistent_streamlen _ (proj1 Hinv)), len_app. done.
Qed.

(** C5, as the code has it.  There is no check for a disposed-of reader.
    [Dispose] sets the reader's entry to -1, which [trim] skips.  A later
    [NBRead] through that reader is an [NBRead] like any other: with nothing
    at its position it returns the zero value and [false] and changes
    nothing; with the item at its position still in the buffer it returns
    that item and assigns the advanced position to the entry, which makes
    the reader count again; it panics only when the item at its position has
    been trimmed away.  A [Read] that does not wait does the same, and a
    second [Dispose] returns. *)
Theorem read_after_Dispose (Wd : World) (i : nat) (r : R) :
  reachable Wd → len (written Wd) ≤ int_max → handles Wd !! i = Some r →
  ∃ Wd1, step Wd (OpDispose i) = Ret (Wd1, Done) ∧
    handles Wd1 !! i = Some r ∧ readerpos (shared Wd1) !! i = Some (-1) ∧
    (len (written Wd1) ≤ pos r →
       step Wd1 (OpNBRead i) = Ret (Wd1, Got (zero (shared Wd1)) false)) ∧
    (offset (shared Wd1) ≤ pos r < len (written Wd1) →
       ∃ x Wd2, step Wd1 (OpNBRead i) = Ret (Wd2, Got x true) ∧
         written Wd1 !! Z.to_nat (pos r) = Some x ∧
         readerpos (shared Wd2) !! i = Some (pos r + 1)) ∧
    (pos r < offset (shared Wd1) → step Wd1 (OpNBRead i) = Panic) ∧
    (∀ ctx, ctx ≠ Some true →
       pos r < len (written Wd1) ∨ closed (shared Wd1) = true →
       step Wd1 (OpRead i ctx) = step Wd1 (OpNBRead i)) ∧
    (∃ Wd2, step Wd1 (OpDispose i) = Ret (Wd2, Done)).
Proof.
  intros HR Hb Hir. pose proof (reachable_inv Wd HR Hb) as Hinv.
  destruct (Dispose_inv Wd i r Hinv Hir) as (w1 & HD & Hinv1 & Hrp & _).
  set (Wd1 := mkWorld w1 (handles Wd) (written Wd)) in *.
  assert (handles Wd1 !! i = Some r) as Hir1 by done.
  exists Wd1. split; [unfold step, handle; by rewrite Hir; simpl; rewrite HD|].
  split; [done|]. split.
  { simpl. rewrite Hrp. apply list_lookup_insert_eq.
    rewrite <-(inv_handles _ (proj1 Hinv)). by eapply lookup_lt_Some. }
  split; [intros Hp; by apply (NBRead_step_nothing Wd1 i r)|]. split.
  { intros Hp. destruct (NBRead_step_item Wd1 i r Hinv1 Hir1 Hp)
      as (x & Wd2 & HNB & Hx & _ & _ & _ & Hrp2 & _).
    exists x, Wd2. split; [done|]. split; [done|]. rewrite Hrp2.
    apply list_lookup_insert_eq.
    rewrite <-(inv_handles _ (proj1 Hinv1)). by eapply lookup_lt_Some. }
  split; [intros Hp; by apply (NBRead_step_discarded Wd1 i r)|]. split.
  { intros ctx Hctx Hready. eapply Read_step_NBRead; [done..|].
    by rewrite (consistent_streamlen _ (proj1 Hinv1)). }
  destruct (Dispose_inv Wd1 i r Hinv1 Hir1) as (w2 & HD2 & _).
  eexists. unfold step, handle. rewrite Hir1.
  cbn [mbind outcome_bind]. by rewrite HD2.
Qed.

(** C9.  In every reachable state the buffer holds no more items than lie
    between the least position recorded for an active reader and the end of
    the stream (none at all when no reader is active); and a written
    position that every active reader has read past is not in the buffer any
    more: it lies below [offset], and [item] is out of range there.  As
    every method that moves a reader ends with [trim], this holds right
    after the read that was the last to pass the position.  The bound holds
    for the positions recorded in [readerpos] and for the readers' own
    positions alike. *)
Theorem buffer_holds_only_what_is_needed (Wd : World) :
  reachable Wd → len (written Wd) ≤ int_max →
  streamlen (shared Wd) = len (written Wd) ∧
  (∃ m, (m = streamlen (shared Wd) ∨ (m ∈ readerpos (shared Wd) ∧ active m)) ∧
        m ≤ streamlen (shared Wd) ∧
        (∀ e, e ∈ readerpos (shared Wd) → active e → m ≤ e) ∧
        len (items (shared Wd)) ≤ streamlen (shared Wd) - m) ∧
  (items (shared Wd) = [] ∨
   ∃ i r e, handles Wd !! i = Some r ∧ readerpos (shared Wd) !! i = Some e ∧
            active e ∧ len (items (shared Wd)) ≤ streamlen (shared Wd) - pos r) ∧
  (∀ p, 0 ≤ p < len (written Wd) →
        (∀ i r e, handles Wd !! i = Some r → readerpos (shared Wd) !! i = Some e →
                  active e → p < pos r) →
        p < offset (shared Wd) ∧ item (shared Wd) p = Panic).
Proof.
  intros HR Hb. destruct (reachable_inv Wd HR Hb) as [HC Htr].
  pose proof (consistent_streamlen _ HC) as Hsl. unfold trimmed in Htr.
  pose proof (consistent_in_range _ HC) as Hrange.
  rewrite streamlen_eq in Hsl by done.
  split; [by rewrite streamlen_eq|]. split; [|split].
  - exists (trim_min (shared Wd)). split; [apply trim_min_cases|].
    split; [apply trim_min_le|]. split; [intros e; apply trim_min_lower|].
    rewrite streamlen_eq by done. lia.
  - destruct (trim_min_cases (shared Wd)) as [Hm|[Hin Hact]].
    + left. rewrite streamlen_eq in Hm by done. apply nil_length_inv.
      unfold len in *. lia.
    + right. apply list_elem_of_lookup in Hin as [i Hi].
      destruct (lookup_lt_is_Some_2 (handles Wd) i) as [r Hir].
      { rewrite (inv_handles _ HC). by eapply lookup_lt_Some. }
      exists i, r, (trim_min (shared Wd)). split; [done|]. split; [done|].
      split; [done|]. rewrite streamlen_eq by done.
      destruct (inv_handle _ HC i r Hir) as (_ & _ & e & Hie & Ht).
      assert (e = trim_min (shared Wd)) as -> by congruence.
      unfold tracks, active in *. lia.
  - intros p Hp Hpast. assert (p < offset (shared Wd)) as Hlt.
    { destruct (trim_min_cases (shared Wd)) as [Hm|[Hin Hact]].
      - rewrite streamlen_eq in Hm by done. lia.
      - apply list_elem_of_lookup in Hin as [i Hi].
        destruct (lookup_lt_is_Some_2 (handles Wd) i) as [r Hir].
        { rewrite (inv_handles _ HC). by eapply lookup_lt_Some. }
        specialize (Hpast i r _ Hir Hi Hact).
        destruct (inv_handle _ HC i r Hir) as (_ & _ & e & Hie & Ht).
        assert (e = trim_min (shared Wd)) as -> by congruence.
        unfold tracks, active in *. lia. }
    split; [done|]. apply item_discarded; [done|lia].
Qed.

(** C8.  A reader that has not been disposed of, on a stream whose buffer
    is empty: [NBRead] returns the zero value and [false] at once and
    changes nothing (whether or not the stream is closed; [NBRead] has no
    wait).  After one [Write] of an assignable item, [NBRead] returns that
    item and [true]; and from then on, whatever calls other than [Write] are
    made on the stream, [NBRead] through that reader returns the zero value
    and [false] and changes nothing. *)
Theorem NBRead_once_per_Write (Wd : World) (i : nat) (r : R) (x : Item) :
  reachable Wd → len (written Wd) < int_max →
  attached Wd i → handles Wd !! i = Some r →
  items (shared Wd) = [] → writable (shared Wd) x = true →
  step Wd (OpNBRead i) = Ret (Wd, Got (zero (shared Wd)) false) ∧
  ∃ Wd1 Wd2,
    step Wd (OpWrite x) = Ret (Wd1, Done) ∧
    step Wd1 (OpNBRead i) = Ret (Wd2, Got x true) ∧
    ∀ ops, Forall (λ op, is_write op = false) ops →
      step (run Wd2 ops) (OpNBRead i)
        = Ret (run Wd2 ops, Got (zero (shared Wd)) false).
Proof.
  intros HR Hb Hatt Hir Hempty Hw.
  assert (inv Wd) as Hinv by (apply reachable_inv; [done|lia]).
  pose proof (attached_pos Wd i r Hinv Hatt Hir) as Hpos.
  assert (pos r = len (written Wd)) as Hend.
  { pose proof (inv_items _ (proj1 Hinv)) as Hits.
    pose proof (inv_offset _ (proj1 Hinv)). pose proof (inv_end _ (proj1 Hinv)).
    apply (f_equal len) in Hits. rewrite Hempty, len_drop in Hits by lia.
    unfold len in Hits at 1. simpl in Hits. lia. }
  split; [apply (NBRead_step_nothing Wd i r); [done..|lia]|].
  destruct (Write_inv Wd x Hinv Hw Hb) as (w1 & HW & Hinv1 & Hrp1 & _ & Hz1 & _).
  set (Wd1 := mkWorld w1 (handles Wd) (written Wd ++ [x])) in *.
  assert (attached Wd1 i) as Hatt1.
  { destruct Hatt as (r' & e & ? & ? & ?). exists r', e. simpl. by rewrite Hrp1. }
  assert (handles Wd1 !! i = Some r) as Hir1 by done.
  pose proof (attached_pos Wd1 i r Hinv1 Hatt1 Hir1) as Hpos1.
  destruct (NBRead_step_item Wd1 i r Hinv1 Hir1)
    as (x' & Wd2 & HNB & Hx' & Hinv2 & Hw2 & Hhs2 & _ & _ & Hz2 & _).
  { simpl in *. rewrite len_snoc in *. lia. }
  assert (x' = x) as ->.
  { simpl in Hx'. rewrite Hend in Hx'. unfold len in Hx'.
    rewrite Nat2Z.id, list_lookup_middle in Hx' by done. congruence. }
  exists Wd1, Wd2. split; [unfold step; by rewrite HW|]. split; [done|].
  intros ops Hops.
  destruct (idle_run Wd2 ops i (set_pos r (pos r + 1)) Hinv2) as (Hinv3 & Hw3 & Hir3);
    [| |done|].
  { rewrite Hhs2. apply list_lookup_insert_eq. by eapply lookup_lt_Some. }
  { rewrite Hw2. simpl. rewrite len_snoc. lia. }
  rewrite <-Hz1. change w1 with (shared Wd1). rewrite <-Hz2, <-(zero_run Wd2 ops).
  apply (NBRead_step_nothing _ i (set_pos r (pos r + 1))); [done..|].
  rewrite Hw3, Hw2. simpl. rewrite len_snoc. lia.
Qed.

(** C7, as the code has it.  [Close] is idempotent: a second [Close]
    leaves the state as the first one left it.  In a closed stream, and
    until the next [Write] (which the code accepts on a closed stream), a
    reader that stands at the end is given the zero value and [false] by
    every [Read] (whatever its context) and every [NBRead], whatever other
    calls are made meanwhile; and the reads through a reader that has not
    been disposed of return the items from its position to the end, one by
    one and in order, and only then the zero value and [false], whatever
    the other readers do meanwhile. *)
Theorem Close_then_drain (Wd : World) (i : nat) (r : R) :
  reachable Wd → len (written Wd) ≤ int_max →
  closed (shared Wd) = true → handles Wd !! i = Some r →
  (∀ w : W, Close (Close w) = Close w) ∧
  after Wd OpClose = Wd ∧
  (len (written Wd) ≤ pos r →
   ∀ ops ctx, Forall (λ op, is_write op = false) ops →
     step (run Wd ops) (OpRead i ctx)
       = Ret (run Wd ops, Got (zero (shared Wd)) false) ∧
     step (run Wd ops) (OpNBRead i)
       = Ret (run Wd ops, Got (zero (shared Wd)) false)) ∧
  (attached Wd i →
   ∀ ops N, Forall (λ op, is_write op = false ∧ undisturbed i op) ops →
     (reads_in i ops ≤ N)%nat →
     trace Wd ops ≫= results i =
       take (reads_in i ops)
         (((λ x, (x, true)) <$> drop (Z.to_nat (pos r)) (written Wd))
          ++ replicate N (zero (shared Wd), false))).
Proof.
  intros HR Hb Hc Hir. pose proof (reachable_inv Wd HR Hb) as Hinv.
  split; [done|]. split.
  { unfold after, step, Close, set_closed. simpl. rewrite <-Hc.
    by destruct Wd as [[] ? ?]. }
  split.
  - intros Hp ops ctx Hops.
    destruct (idle_run Wd ops i r Hinv Hir Hp Hops) as (Hinv' & Hw & Hir').
    assert (step (run Wd ops) (OpNBRead i)
              = Ret (run Wd ops, Got (zero (shared Wd)) false)) as HNB.
    { rewrite <-(zero_run Wd ops). apply (NBRead_step_nothing _ i r); [done..|].
      by rewrite Hw. }
    split; [|done]. destruct (decide (ctx = Some true)) as [->|Hctx].
    + rewrite <-(zero_run Wd ops). by eapply Read_step_cancelled.
    + rewrite (Read_step_NBRead _ i ctx r Hir' Hctx); [done|].
      right. by apply closed_run.
  - intros Hatt ops N Hops HN. by apply drain.
Qed.

(** C6.  [Reader] returns a reader whose position is the current
    [offset], the position of the oldest item in the buffer, and the reader
    is attached.  While [offset] is below the end of the stream, a read
    through the new reader, its context not cancelled, returns the item at
    [offset] with [true], not the end of the stream.  In any run [ops] that
    follows, the items this reader is handed are exactly the items at the
    global positions from that offset up to the position it has reached, in
    order and each once: none below the offset at the time of attachment,
    none skipped.  And as long as the reader is not disposed of, which no
    call but its own [Dispose] brings about, its reads deliver what is left:
    a read whose context is not cancelled, the reader's position below the
    end of the stream, returns the item at that position with [true] and
    moves the reader on by one; [NBRead] called [n] times in a row returns
    the items from the reader's position to the end of the stream, in
    order, and then the zero value with [false]. *)
Theorem Reader_starts_at_offset (Wd : World) (ops : list Op) :
  reachable Wd → len (written (run (after Wd OpReader) ops)) ≤ int_max →
  let i := length (handles Wd) in
  let base := offset (shared Wd) in
  step Wd OpReader = Ret (after Wd OpReader, Handle i) ∧
  handles (after Wd OpReader) !! i = Some (mkR (Z.of_nat i) base) ∧
  (∃ r', handles (run (after Wd OpReader) ops) !! i = Some r' ∧
    base ≤ pos r' ∧
    trace (after Wd OpReader) ops ≫= received i
      = window (written (run (after Wd OpReader) ops)) base (pos r') ∧
    (attached (run (after Wd OpReader) ops) i →
      (∀ op, reading i op →
         pos r' < streamlen (shared (run (after Wd OpReader) ops)) →
         ∃ x, written (run (after Wd OpReader) ops) !! Z.to_nat (pos r') = Some x ∧
           result_of (run (after Wd OpReader) ops) op = Ret (Got x true) ∧
           handles (after (run (after Wd OpReader) ops) op) !! i
             = Some (set_pos r' (pos r' + 1))) ∧
      (∀ n, trace (run (after Wd OpReader) ops) (replicate n (OpNBRead i))
              ≫= results i
            = take n (((λ x, (x, true)) <$>
                         drop (Z.to_nat (pos r'))
                           (written (run (after Wd OpReader) ops)))
                      ++ replicate n (zero (shared Wd), false))))) ∧
  attached (after Wd OpReader) i ∧
  (Forall (λ op, ∀ j, op = OpDispose j → j ≠ i) ops →
   attached (run (after Wd OpReader) ops) i) ∧
  (∀ op, reading i op → base < streamlen (shared Wd) →
     ∃ x, written Wd !! Z.to_nat base = Some x ∧
       result_of (after Wd OpReader) op = Ret (Got x true) ∧
       handles (after (after Wd OpReader) op) !! i
         = Some (mkR (Z.of_nat i) (base + 1))).
Proof.
  intros HR Hb i base.
  assert (len (written Wd) ≤ int_max) as Hb0.
  { pose proof (written_run_len (after Wd OpReader) ops).
    pose proof (written_after_len Wd OpReader). lia. }
  pose proof (reachable_inv Wd HR Hb0) as Hinv.
  assert (handles (after Wd OpReader) !! i = Some (mkR (Z.of_nat i) base)) as Hi.
  { unfold i, base. simpl. unfold len.
    rewrite <-(inv_handles _ (proj1 Hinv)). by apply list_lookup_middle. }
  assert (inv (after Wd OpReader)) as Hinv1 by by apply Reader_inv.
  assert (attached (after Wd OpReader) i) as Hatt1.
  { exists (mkR (Z.of_nat i) base), 0. split; [done|]. split; [|done].
    unfold i. simpl. rewrite (inv_handles _ (proj1 Hinv)).
    by apply list_lookup_middle. }
  assert (inv (run (after Wd OpReader) ops)) as Hinvf by by apply inv_run.
  split; [done|]. split; [done|]. split; [|split; [done|split]].
  - destruct (received_run (after Wd OpReader) ops i (mkR (Z.of_nat i) base))
      as (r' & Hir' & Hle & Htr); [done..|].
    exists r'. split; [done|]. split; [done|]. split; [done|].
    intros Hattf. split.
    + intros op Hop Hlt. by apply reading_item.
    + intros n.
      assert (zero (shared Wd) = zero (shared (run (after Wd OpReader) ops))) as ->.
      { rewrite zero_run. by destruct (step_frame Wd OpReader) as (_ & ? & _). }
      by apply NBRead_run.
  - intros Hops. by apply attached_run.
  - intros op Hop Hlt.
    destruct (reading_item (after Wd OpReader) i (mkR (Z.of_nat i) base) op)
      as (x & Hx & Hres & Hh); try done.
    exists x. done.
Qed.

(** C1.  One reader, attached to a new stream before anything is written.
    The writer writes the items [xs], all assignable, and closes; the reader
    calls [Read] again and again with contexts that are not cancelled, its
    attempts interleaved with the writer's calls in any way ([sched]), and
    goes on reading once the writer is done.  Then the pairs [Read] returns
    are the items of [xs] with [true], in the order written and each once,
    followed by the zero value with [false] and nothing else.  No attempt
    returns early with [false]; an attempt either waits, or returns, or, for
    a nil context on the still open stream with nothing to read, panics; no
    other call panics. *)
Theorem single_reader_receives_all (z : Item) (xs : list Item)
    (sched : list Op) (c : context) (N : nat) :
  Forall (λ x, writable (New z) x = true) xs → len xs ≤ int_max →
  filter (λ op, by_writer op = true) sched = (OpWrite <$> xs) ++ [OpClose] →
  Forall (λ op, by_writer op = true ∨ waits_on 0 op) sched →
  c ≠ Some true → (length xs < N)%nat →
  let tr := trace (after (init z) OpReader) (sched ++ replicate N (OpRead 0 c)) in
  (∃ m, tr ≫= results 0 = ((λ x, (x, true)) <$> xs) ++ replicate (S m) (z, false)) ∧
  (∀ op, (op, Panic) ∈ tr → op = OpRead 0 None).
Proof.
  intros Hws Hb Hf Hsched Hc HN tr. subst tr.
  set (Wd0 := after (init z) OpReader).
  assert (inv Wd0) as Hinv0 by apply (Reader_inv (init z)), inv_init.
  assert (handles Wd0 !! 0%nat = Some (mkR 0 0)) as Hir0 by done.
  assert (attached Wd0 0) as Hatt0.
  { exists (mkR 0 0), 0. split; [done|]. split; [done|]. unfold active. lia. }
  destruct (filter_snoc_split _ _ _ _ Hf) as (pre & post & -> & Hpre & Hpost).
  apply Forall_app in Hsched as [Hspre Hspost].
  apply Forall_cons in Hspost as [_ Hspost].
  apply filter_nil_Forall in Hpost.
  destruct (open_phase Wd0 pre xs 0 (mkR 0 0) Hinv0 Hatt0 Hir0)
    as (r1 & Hinv1 & Hatt1 & Hir1 & Hc1 & Hw1 & Hle1 & Htr1 & Hpanic1); try done.
  change (written Wd0) with (@nil Item) in Hw1, Htr1. simpl in Hw1, Hle1, Htr1.
  set (W1 := run Wd0 pre) in *.
  set (tail := post ++ replicate N (OpRead 0 c)).
  assert (Forall (λ op : Op, ∃ ctx, ctx ≠ Some true ∧ op = OpRead 0 ctx) tail) as Htail.
  { apply Forall_app. split.
    - apply Forall_forall. intros op Hop.
      rewrite Forall_forall in Hspost, Hpost.
      destruct (Hspost op Hop) as [Hbw|?]; [|done]. by destruct (Hpost op Hop).
    - apply Forall_replicate. by exists c. }
  assert (inv (after W1 OpClose)) as Hinv2 by by apply Close_inv.
  assert (attached (after W1 OpClose) 0) as Hatt2 by (by apply step_attached).
  destruct (drain (after W1 OpClose) tail 0 r1 (reads_in 0 tail)) as [Htr2 Hpanic2];
    [done..| |done|].
  { eapply Forall_impl; [apply Htail|]. intros op (ctx & Hctx & ->).
    split; [done|]. split; [done|]. intros _. right. by exists ctx. }
  assert (zero (shared (after W1 OpClose)) = z) as Hz by apply (zero_run Wd0 pre).
  simpl written in Htr2. rewrite Hw1, Hz in Htr2.
  pose proof (attached_pos W1 0 r1 Hinv1 Hatt1 Hir1) as Hpos1. rewrite Hw1 in Hpos1.
  unfold window in Htr1. replace (pos r1 - 0) with (pos r1) in Htr1 by lia.
  rewrite drop_0 in Htr1.
  assert (N ≤ reads_in 0 tail)%nat as Hreads.
  { unfold tail. rewrite reads_in_app, reads_in_replicate. lia. }
  replace (pre ++ OpClose :: post) with (pre ++ [OpClose] ++ post) by done.
  rewrite <-!(assoc_L (++)). fold tail.
  rewrite trace_app. fold W1. simpl trace. split.
  - exists (reads_in 0 tail - length (drop (Z.to_nat (pos r1)) xs) - 1)%nat.
    rewrite bind_app, bind_cons, Htr1, Htr2. simpl results. simpl app.
    rewrite take_app.
    rewrite (take_ge (_ <$> drop _ xs)) by (rewrite length_fmap, length_drop; lia).
    rewrite length_fmap, take_replicate, length_drop.
    rewrite (assoc_L (++)), <-fmap_app, take_drop. f_equal.
    rewrite Nat.min_l by lia.
    destruct (reads_in 0 tail - (length xs - Z.to_nat (pos r1)))%nat eqn:E; [lia|].
    simpl. do 2 f_equal. lia.
  - intros op [Hin|[[=]|Hin]%elem_of_cons]%elem_of_app.
    + by apply Hpanic1.
    + specialize (Hpanic2 op Hin). apply trace_ops in Hin.
      rewrite Forall_forall in Htail. destruct (Htail op Hin) as (ctx & _ & ->).
      simpl in Hpanic2. done.
Qed.

End properties.

Lemma Read_cancelled_consumes_nothing_witness :
  let Wd := run (init (VInt 0)) [OpReader; OpWrite (VInt 1)] in
  handles Wd !! 0%nat = Some (mkR 0 0) ∧
  result_of Wd (OpNBRead 0) = Ret (Got (VInt 1) true) ∧
  step Wd (OpRead 0 (Some true)) = Ret (Wd, Got (VInt 0) false).
Proof.
  intros Wd. split; [reflexivity|]. split; [reflexivity|].
  apply (proj2 (Read_cancelled_consumes_nothing (mkR 0 0) (shared Wd)) Wd 0%nat).
  reflexivity.
Defined.

(** C3.  [Read] with a nil context, on a reader that has nothing to read
    from an open stream, panics: the loop condition calls [ctx.Err()] on the
    nil interface value.  Here the stream is [New(0)] with one reader; a
    live context suspends in the same state, and after a write the nil
    context reads the item. *)
Theorem Read_nil_context_panics :
  let Wd := after (init (VInt 0)) OpReader in
  step Wd (OpRead 0 None) = Panic ∧
  step Wd (OpRead 0 (Some false)) = Blocked ∧
  result_of (after Wd (OpWrite (VInt 1))) (OpRead 0 None) = Ret (Got (VInt 1) true).
Proof. vm_compute. repeat split. Qed.

(** C2, as stated, fails: on the closed stream of [New(0)] with one reader,
    the call [Write(7)] returns, the stream is one item longer, and the
    reader reads the item. *)
Lemma Write_after_Close_extends :
  let Wd := run (init (VInt 0)) [OpReader; OpClose] in
  let Wd' := after Wd (OpWrite (VInt 7)) in
  closed (shared Wd) = true ∧
  result_of Wd (OpWrite (VInt 7)) = Ret Done ∧
  streamlen (shared Wd) = 0 ∧ streamlen (shared Wd') = 1 ∧
  items (shared Wd') = [VInt 7] ∧
  result_of Wd' (OpNBRead 0) = Ret (Got (VInt 7) true).
Proof. vm_compute. repeat split. Qed.

Lemma Write_after_Close_appends_witness :
  let Wd := run (init (VInt 0)) [OpReader; OpClose] in
  ∃ Wd', step Wd (OpWrite (VInt 7)) = Ret (Wd', Done) ∧
    written Wd' = written Wd ++ [VInt 7] ∧
    streamlen (shared Wd') = streamlen (shared Wd) + 1 ∧
    closed (shared Wd') = true.
Proof.
  apply (Write_after_Close_appends
           (run (init (VInt 0)) [OpReader; OpClose]) (VInt 7)).
  - apply reachable_run, reachable_init.
  - vm_compute. reflexivity.
  - reflexivity.
  - reflexivity.
Defined.

(** C4.  After [Write(1)] on a stream without readers the item is trimmed
    away and [offset] is 1; the reader then created by [Reader] starts at
    position 1, but its [readerpos] entry is 0: [offset] exceeds the entry
    of an active reader. *)
Theorem offset_exceeds_entry_of_new_reader :
  let Wd := run (init (VInt 0)) [OpWrite (VInt 1); OpReader] in
  reachable Wd ∧
  offset (shared Wd) = 1 ∧ items (shared Wd) = [] ∧
  handles Wd = [mkR 0 1] ∧ readerpos (shared Wd) = [0] ∧
  ¬ (∀ e, e ∈ readerpos (shared Wd) → active e → offset (shared Wd) ≤ e).
Proof.
  intros Wd. split; [apply reachable_run, reachable_init|].
  repeat (split; [vm_compute; reflexivity|]).
  intros Hle. assert (offset (shared Wd) ≤ 0) as Habs.
  { apply Hle; [vm_compute; apply list_elem_of_here|unfold active; lia]. }
  vm_compute in Habs. by apply Habs.
Qed.

(** C5, as stated, fails: with two readers, after [Write(1)] and the
    disposal of the first reader, [NBRead] through the disposed-of reader
    returns the item and assigns its [readerpos] entry. *)
Lemma NBRead_after_Dispose_returns_item :
  let Wd := run (init (VInt 0)) [OpReader; OpReader; OpWrite (VInt 1); OpDispose 0] in
  readerpos (shared Wd) = [-1; 0] ∧
  result_of Wd (OpNBRead 0) = Ret (Got (VInt 1) true) ∧
  readerpos (shared (after Wd (OpNBRead 0))) = [1; 0].
Proof. vm_compute. repeat split. Qed.

Lemma read_after_Dispose_witness :
  let Wd := run (init (VInt 0)) [OpReader; OpReader; OpWrite (VInt 1)] in
  handles Wd !! 0%nat = Some (mkR 0 0) ∧
  ∃ Wd1, step Wd (OpDispose 0) = Ret (Wd1, Done) ∧
    readerpos (shared Wd1) !! 0%nat = Some (-1) ∧
    ∃ Wd2, step Wd1 (OpDispose 0) = Ret (Wd2, Done).
Proof.
  intros Wd.
  assert (handles Wd !! 0%nat = Some (mkR 0 0)) as Hh by (vm_compute; reflexivity).
  assert (reachable Wd) as HR by apply reachable_run, reachable_init.
  assert (len (written Wd) ≤ int_max) as Hb by (vm_compute; discriminate).
  split; [exact Hh|].
  destruct (read_after_Dispose Wd 0%nat (mkR 0 0) HR Hb Hh)
    as (Wd1 & Hstep & _ & Hrp & _ & _ & _ & _ & Hagain).
  exists Wd1. split; [exact Hstep|]. split; [exact Hrp|exact Hagain].
Defined.

Lemma buffer_holds_only_what_is_needed_witness :
  let Wd := run (init (VInt 0))
              [OpReader; OpReader; OpWrite (VInt 1); OpWrite (VInt 2);
               OpNBRead 0; OpNBRead 1; OpNBRead 0] in
  offset (shared Wd) = 1 ∧ items (shared Wd) = [VInt 2] ∧
  readerpos (shared Wd) = [2; 1] ∧
  item (shared Wd) 0 = Panic.
Proof.
  intros Wd. repeat (split; [vm_compute; reflexivity|]).
  assert (reachable Wd) as HR by apply reachable_run, reachable_init.
  assert (len (written Wd) ≤ int_max) as Hb by (vm_compute; discriminate).
  assert (0 ≤ 0 < len (written Wd)) as Hp by (vm_compute; split; [discriminate|reflexivity]).
  refine (proj2 (proj2 (proj2 (proj2
            (buffer_holds_only_what_is_needed Wd HR Hb))) 0 Hp _)).
  intros [|[|i]] r e Hr He Ha; vm_compute in Hr; [| |discriminate Hr];
    injection Hr as <-; vm_compute; reflexivity.
Defined.

(** C7, as stated, fails: a reader at the end of a closed stream is given
    the zero value and [false], but after a [Write], which the closed
    stream accepts, its next [Read] returns the item written. *)
Lemma Read_after_Close_and_Write_returns_item :
  let Wd := run (init (VInt 0)) [OpReader; OpClose] in
  closed (shared Wd) = true ∧ streamlen (shared Wd) = 0 ∧
  handles Wd !! 0%nat = Some (mkR 0 0) ∧
  trace Wd [OpRead 0 None; OpNBRead 0; OpWrite (VInt 7); OpRead 0 None; OpNBRead 0]
  = [(OpRead 0 None, Ret (Got (VInt 0) false));
     (OpNBRead 0, Ret (Got (VInt 0) false));
     (OpWrite (VInt 7), Ret Done);
     (OpRead 0 None, Ret (Got (VInt 7) true));
     (OpNBRead 0, Ret (Got (VInt 0) false))].
Proof. evaluate. Qed.

Lemma NBRead_once_per_Write_witness :
  let Wd := after (init (VInt 0)) OpReader in
  attached Wd 0 ∧
  step Wd (OpNBRead 0) = Ret (Wd, Got (zero (shared Wd)) false) ∧
  ∃ Wd1 Wd2,
    step Wd (OpWrite (VInt 1)) = Ret (Wd1, Done) ∧
    step Wd1 (OpNBRead 0) = Ret (Wd2, Got (VInt 1) true) ∧
    ∀ ops, Forall (λ op, is_write op = false) ops →
      step (run Wd2 ops) (OpNBRead 0)
        = Ret (run Wd2 ops, Got (zero (shared Wd)) false).
Proof.
  intros Wd.
  assert (attached Wd 0) as Hatt by (exists (mkR 0 0), 0; evaluate).
  assert (reachable Wd) as HR by apply reachable_step, reachable_init.
  assert (len (written Wd) < int_max) as Hb by evaluate.
  assert (handles Wd !! 0%nat = Some (mkR 0 0)) as Hh by evaluate.
  assert (items (shared Wd) = []) as He by evaluate.
  assert (writable (shared Wd) (VInt 1) = true) as Hw by evaluate.
  split; [exact Hatt|].
  exact (NBRead_once_per_Write Wd 0%nat (mkR 0 0) (VInt 1) HR Hb Hatt Hh He Hw).
Defined.

Lemma Close_then_drain_witness :
  let Wd := run (init (VInt 0))
              [OpReader; OpWrite (VInt 1); OpWrite (VInt 2); OpNBRead 0; OpClose] in
  closed (shared Wd) = true ∧ handles Wd !! 0%nat = Some (mkR 0 1) ∧
  attached Wd 0 ∧ after Wd OpClose = Wd ∧
  ∀ ops N, Forall (λ op, is_write op = false ∧ undisturbed 0 op) ops →
    (reads_in 0 ops ≤ N)%nat →
    trace Wd ops ≫= results 0 =
      take (reads_in 0 ops)
        (((λ x, (x, true)) <$> drop (Z.to_nat (pos (mkR 0 1))) (written Wd))
         ++ replicate N (zero (shared Wd), false)).
Proof.
  intros Wd.
  assert (reachable Wd) as HR by apply reachable_run, reachable_init.
  assert (len (written Wd) ≤ int_max) as Hb by evaluate.
  assert (closed (shared Wd) = true) as Hc by evaluate.
  assert (handles Wd !! 0%nat = Some (mkR 0 1)) as Hh by evaluate.
  assert (attached Wd 0) as Hatt by (exists (mkR 0 1), 1; evaluate).
  destruct (Close_then_drain Wd 0%nat (mkR 0 1) HR Hb Hc Hh) as (_ & Hidem & _ & Hdrain).
  split; [exact Hc|]. split; [exact Hh|]. split; [exact Hatt|].
  split; [exact Hidem|]. exact (Hdrain Hatt).
Defined.

Lemma Reader_starts_at_offset_witness :
  let Wd := run (init (VInt 0)) [OpWrite (VInt 5); OpReader; OpWrite (VInt 1)] in
  let ops := [OpWrite (VInt 2); OpNBRead 1] in
  offset (shared Wd) = 1 ∧ streamlen (shared Wd) = 2 ∧
  handles (after Wd OpReader) !! 1%nat = Some (mkR 1 1) ∧
  result_of (after Wd OpReader) (OpRead 1 (Some false)) = Ret (Got (VInt 1) true) ∧
  handles (run (after Wd OpReader) ops) !! 1%nat = Some (mkR 1 2) ∧
  trace (after Wd OpReader) ops ≫= received 1 = [VInt 1] ∧
  result_of (run (after Wd OpReader) ops) (OpNBRead 1) = Ret (Got (VInt 2) true) ∧
  trace (run (after Wd OpReader) ops) (replicate 3 (OpNBRead 1)) ≫= results 1
    = [(VInt 2, true); (VInt 0, false); (VInt 0, false)].
Proof.
  intros Wd ops.
  assert (reachable Wd) as HR by apply reachable_run, reachable_init.
  assert (len (written (run (after Wd OpReader) ops)) ≤ int_max) as Hb by evaluate.
  assert (length (handles Wd) = 1%nat) as Hi by evaluate.
  assert (offset (shared Wd) < streamlen (shared Wd)) as Hlt by evaluate.
  assert (Forall (λ op, ∀ j, op = OpDispose j → j ≠ length (handles Wd)) ops) as Hops.
  { apply Forall_cons. split; [intros j Hj; discriminate Hj|].
    apply Forall_cons. split; [intros j Hj; discriminate Hj|]. apply Forall_nil_2. }
  assert (reading (length (handles Wd)) (@OpRead value 1 (Some false))) as Hrd.
  { right. exists (Some false). split; [intros Hc; discriminate Hc|]. by rewrite Hi. }
  assert (reading (length (handles Wd)) (@OpNBRead value 1)) as Hnb.
  { left. by rewrite Hi. }
  destruct (Reader_starts_at_offset Wd ops HR Hb)
    as (_ & Hh & (r' & Hr' & _ & Htr & Hreads) & _ & Hattf & Hfirst).
  destruct (Hfirst _ Hrd Hlt) as (x & Hx & Hres & _).
  destruct (Hreads (Hattf Hops)) as [Hnext Hdrain].
  specialize (Hdrain 3%nat).
  vm_compute in Hx. injection Hx as <-.
  vm_compute in Hr'. injection Hr' as <-.
  destruct (Hnext _ Hnb) as (y & Hy & Hresy & _); [evaluate|].
  vm_compute in Hy. injection Hy as <-.
  split; [evaluate|]. split; [evaluate|].
  split; [vm_compute in Hh |- *; exact Hh|].
  split; [exact Hres|].
  split; [evaluate|].
  split; [vm_compute in Htr |- *; exact Htr|].
  split; [exact Hresy|].
  vm_compute in Hdrain |- *. exact Hdrain.
Defined.

Lemma single_reader_receives_all_witness :
  let xs := [VInt 1; VInt 2; VInt 3] in
  let sched := [OpRead 0 (Some false); OpWrite (VInt 1); OpRead 0 None;
                OpWrite (VInt 2); OpWrite (VInt 3); OpClose] in
  ∃ m, trace (after (init (VInt 0)) OpReader) (sched ++ replicate 4 (OpRead 0 None))
         ≫= results 0
       = ((λ x, (x, true)) <$> xs) ++ replicate (S m) (VInt 0, false).
Proof.
  intros xs sched.
  assert (Forall (λ x, writable (New (VInt 0)) x = true) xs) as Hws
    by (repeat constructor).
  assert (len xs ≤ int_max) as Hb by evaluate.
  assert (filter (λ op, by_writer op = true) sched = (OpWrite <$> xs) ++ [OpClose])
    as Hf by evaluate.
  assert (Forall (λ op, by_writer op = true ∨ waits_on 0 op) sched) as Hsched.
  { repeat (constructor;
      [first [by left | right; eexists; split; [|reflexivity]; discriminate]|]).
    constructor. }
  assert (@None bool ≠ Some true) as Hc by discriminate.
  assert (length xs < 4)%nat as HN by (simpl; lia).
  exact (proj1 (single_reader_receives_all (VInt 0) xs sched None 4 Hws Hb Hf Hsched Hc HN)).
Defined.

(** ** The test suite

    The scenarios of the tests, run on the model. *)

(** TestSimple and Test100, in the order write, close, read. *)
Example test_simple :
  trace (init (VInt 0))
    [OpReader; OpWrite (VInt 1); OpWrite (VInt 2); OpWrite (VInt 3); OpClose;
     OpRead 0 None; OpRead 0 None; OpRead 0 None; OpRead 0 None]
  ≫= results 0
  = [(VInt 1, true); (VInt 2, true); (VInt 3, true); (VInt 0, false)].
Proof. evaluate. Qed.

(** TestTwo: both readers see the whole sequence, at their own pace. *)
Example test_two :
  let tr := trace (init (VInt 0))
    [OpReader; OpReader; OpWrite (VInt 1); OpRead 0 None; OpWrite (VInt 2);
     OpRead 0 None; OpRead 1 None; OpWrite (VInt 3); OpClose; OpRead 1 None;
     OpRead 0 None; OpRead 1 None; OpRead 1 None; OpRead 0 None] in
  tr ≫= received 0 = [VInt 1; VInt 2; VInt 3] ∧
  tr ≫= received 1 = [VInt 1; VInt 2; VInt 3].
Proof. evaluate. Qed.

(** TestNBRead *)
Example test_nbread :
  trace (init (VInt 0)) [OpReader; OpNBRead 0; OpWrite (VInt 1); OpNBRead 0]
  ≫= results 0
  = [(VInt 0, false); (VInt 1, true)].
Proof. evaluate. Qed.

(** TestTypecheck *)
Example test_typecheck :
  Write (New (VInt 0)) (VString "foo") = Panic.
Proof. evaluate. Qed.

(** TestTrim: an item written before there is a reader is not seen. *)
Example test_trim :
  trace (init (VInt 0)) [OpWrite (VInt 1); OpReader; OpWrite (VInt 2); OpRead 0 None]
  ≫= results 0
  = [(VInt 2, true)].
Proof. evaluate. Qed.

(** A reader attached while an earlier item is still buffered for a slower
    reader sees that item. *)
Example late_reader_sees_buffered_item :
  trace (init (VInt 0))
    [OpReader; OpWrite (VInt 1); OpReader; OpWrite (VInt 2);
     OpNBRead 1; OpNBRead 1; OpNBRead 1]
  ≫= results 1
  = [(VInt 1, true); (VInt 2, true); (VInt 0, false)].
Proof. evaluate. Qed.

(** * Further properties of the code *)

(** ** The shared buffer *)

Section buffer.
Context {Item : Type} `{!GoValue Item}.
Implicit Types (w : W) (r : R) (Wd : World) (x : Item).

Lemma trim_not_Blocked w : trim w ≠ Blocked.
Proof.
  unfold trim, slice_from. case_bool_decide; [case_decide|]; simpl; done.
Qed.

Lemma index_not_Blocked {A} (l : list A) (i : Z) : index l i ≠ Blocked.
Proof. unfold index. case_decide; [|done]. by destruct (l !! _). Qed.

Lemma assign_not_Blocked {A} (l : list A) (i : Z) (a : A) : assign l i a ≠ Blocked.
Proof. unfold assign. by case_decide. Qed.

Lemma doRead_not_Blocked r w : doRead r w ≠ Blocked.
Proof.
  unfold doRead, item.
  pose proof (index_not_Blocked (items w) (wrap (pos r - offset w))).
  destruct (index _ _) as [x| |]; simpl; [|done..].
  pose proof (assign_not_Blocked (readerpos w) (id r) (wrap (pos r + 1))).
  destruct (assign _ _ _) as [rp| |]; simpl; [|done..].
  pose proof (trim_not_Blocked (set_readerpos w rp)).
  by destruct (trim _).
Qed.

(** A buffer with nothing to trim is left as it is. *)
Lemma trim_trimmed w : in_range w → trimmed w → trim w = Ret w.
Proof.
  intros Hr Ht. pose proof (trim_min_nonneg w Hr). destruct Hr as [Ho Hb].
  unfold trimmed in Ht. unfold trim.
  rewrite (wrap_id (trim_min w - offset w)) by int_lia.
  by rewrite bool_decide_false by lia.
Qed.

Lemma trim_offset w w' : in_range w → trim w = Ret w' → offset w ≤ offset w'.
Proof.
  intros Hr Htrim. destruct (trim_spec w Hr) as (w1 & Htrim1 & Hoff & _).
  assert (w1 = w') as -> by congruence. lia.
Qed.

Lemma zerotype_run Wd ops : zerotype (shared (run Wd ops)) = zerotype (shared Wd).
Proof.
  induction ops as [|op ops IH] using rev_ind; [done|].
  rewrite run_snoc. by destruct (step_frame (run Wd ops) op) as (_ & _ & ->).
Qed.

(** X12.  The only call that suspends is a [Read] with a context that is
    not nil and not cancelled, through a reader with nothing to read, on a
    stream that is not closed.  [Write], [Close], [Reader], [NBRead] and
    [Dispose] never wait, and neither does a [Read] that has an item at its
    position, a closed stream or a cancelled context. *)
Theorem suspends_only_in_waiting_Read (Wd : World) (op : Op) :
  step Wd op = Blocked ↔
  ∃ i r, op = OpRead i (Some false) ∧ handles Wd !! i = Some r ∧
         streamlen (shared Wd) ≤ pos r ∧ closed (shared Wd) = false.
Proof.
  split.
  - unfold step, handle. destruct op as [x| | |i ctx|i|i]; simpl; try done.
    + rewrite Write_writable. destruct (writable _ _); [|done].
      pose proof (trim_not_Blocked (set_items (shared Wd) (items (shared Wd) ++ [x]))).
      by destruct (trim _).
    + destruct (handles Wd !! i) as [r|] eqn:Hir; simpl; [|done].
      unfold Read, Read_cond. case_bool_decide as Hp.
      * destruct (closed (shared Wd)) eqn:Hc; simpl.
        { destruct (Read_done ctx r (shared Wd)); simpl; [done|].
          pose proof (doRead_not_Blocked r (shared Wd)).
          by destruct (doRead _ _) as [[[] ?]| |]. }
        destruct ctx as [[]|]; simpl; [done| |done].
        intros _. by exists i, r.
      * simpl. destruct (Read_done ctx r (shared Wd)); simpl; [done|].
        pose proof (doRead_not_Blocked r (shared Wd)).
        by destruct (doRead _ _) as [[[] ?]| |].
    + destruct (handles Wd !! i) as [r|]; simpl; [|done].
      unfold NBRead. case_bool_decide; simpl; [done|].
      pose proof (doRead_not_Blocked r (shared Wd)).
      by destruct (doRead _ _) as [[[] ?]| |].
    + destruct (handles Wd !! i) as [r|]; simpl; [|done].
      unfold Dispose.
      pose proof (assign_not_Blocked (readerpos (shared Wd)) (id r) (-1)).
      destruct (assign _ _ _) as [rp| |]; simpl; [|done..].
      pose proof (trim_not_Blocked (set_readerpos (shared Wd) rp)).
      by destruct (trim _).
  - intros (i & r & -> & Hir & Hp & Hc). unfold step, handle. rewrite Hir. simpl.
    by rewrite Read_blocked.
Qed.

(** X1.  On a stream made by [New z], [Write] panics exactly when the type
    of the item is not assignable to the type of [z] (or one of the two is
    the nil type), and then nothing has changed; otherwise it returns and
    the item is the new last item of the stream.  Nothing else decides it:
    not the closed flag, not the readers. *)
Theorem Write_checks_the_type_only (z : Item) (ops : list Op) (x : Item) :
  len (written (run (init z) ops)) < int_max →
  (writable (New z) x = false →
     step (run (init z) ops) (OpWrite x) = Panic ∧
     after (run (init z) ops) (OpWrite x) = run (init z) ops) ∧
  (writable (New z) x = true →
     ∃ Wd', step (run (init z) ops) (OpWrite x) = Ret (Wd', Done) ∧
       written Wd' = written (run (init z) ops) ++ [x] ∧
       streamlen (shared Wd') = streamlen (shared (run (init z) ops)) + 1 ∧
       handles Wd' = handles (run (init z) ops) ∧
       readerpos (shared Wd') = readerpos (shared (run (init z) ops)) ∧
       closed (shared Wd') = closed (shared (run (init z) ops))).
Proof.
  intros Hb. set (Wd := run (init z) ops) in *.
  assert (writable (shared Wd) x = writable (New z) x) as Hwz.
  { apply writable_zerotype. apply (zerotype_run (init z) ops). }
  assert (inv Wd) as Hinv.
  { apply reachable_inv; [apply reachable_run, reachable_init|lia]. }
  split; intros Hw; rewrite <-Hwz in Hw.
  - assert (step Wd (OpWrite x) = Panic) as Hst.
    { unfold step. by rewrite Write_writable, Hw. }
    split; [done|]. by apply after_Panic.
  - destruct (Write_inv Wd x Hinv Hw Hb) as (w' & HW & Hinv' & Hrp & Hcl & _).
    eexists. split; [unfold step; by rewrite HW|]. simpl.
    split; [done|]. split; [|done].
    pose proof (consistent_streamlen _ (proj1 Hinv')) as Hsl. simpl in Hsl.
    by rewrite Hsl, (consistent_streamlen _ (proj1 Hinv)), len_snoc.
Qed.

(** *** Positions only move forward *)

Lemma doRead_offset r w x r' w' :
  in_range w → doRead r w = Ret (x, r', w') → offset w ≤ offset w'.
Proof.
  intros Hr. unfold doRead. destruct (item _ _); simpl; [|done..].
  destruct (assign _ _ _) as [rp| |]; simpl; [|done..].
  destruct (trim _) as [w1| |] eqn:Htrim; simpl; [|done..].
  intros [= _ _ <-]. by apply (trim_offset (set_readerpos w rp)).
Qed.

Lemma offset_after Wd op :
  inv Wd → len (written (after Wd op)) ≤ int_max →
  offset (shared Wd) ≤ offset (shared (after Wd op)).
Proof.
  intros [HC _] Hb. pose proof (consistent_in_range _ HC) as Hr.
  revert Hb. unfold after, step, handle. destruct op as [x| | |i ctx|i|i]; simpl; try done.
  - rewrite Write_writable. destruct (writable _ _); [|done].
    destruct (trim _) as [w'| |] eqn:Htrim; simpl; [|done..]. intros Hb.
    apply (trim_offset (set_items (shared Wd) (items (shared Wd) ++ [x]))); [|done].
    destruct HC as [Ho He _ Hi _ _]. split; [done|]. simpl.
    rewrite len_snoc in *. rewrite Hi, len_drop; lia.
  - destruct (handles Wd !! i) as [r|]; simpl; [|done].
    unfold Read. destruct (Read_cond _ _ _) as [[]| |]; simpl; [done| |done..].
    destruct (Read_done _ _ _); simpl; [done|].
    destruct (doRead _ _) as [[[x r'] w']| |] eqn:Hdo; simpl; [|done..].
    intros _. by eapply doRead_offset.
  - destruct (handles Wd !! i) as [r|]; simpl; [|done].
    unfold NBRead. case_bool_decide; simpl; [done|].
    destruct (doRead _ _) as [[[x r'] w']| |] eqn:Hdo; simpl; [|done..].
    intros _. by eapply doRead_offset.
  - destruct (handles Wd !! i) as [r|]; simpl; [|done].
    unfold Dispose. destruct (assign _ _ _) as [rp| |]; simpl; [|done..].
    destruct (trim _) as [w'| |] eqn:Htrim; simpl; [|done..].
    intros _. by apply (trim_offset (set_readerpos (shared Wd) rp)).
Qed.

Lemma offset_run Wd ops :
  inv Wd → len (written (run Wd ops)) ≤ int_max →
  offset (shared Wd) ≤ offset (shared (run Wd ops)).
Proof.
  revert Wd. induction ops as [|op ops IH]; intros Wd Hinv Hb; [done|].
  rewrite run_cons in *. pose proof (written_run_len (after Wd op) ops).
  etrans; [apply (offset_after Wd op); [done|lia]|].
  apply IH; [apply inv_after; [done|lia]|done].
Qed.

(** X2.  In any run the offset never decreases and the stream never gets
    shorter; the offset stays between 0 and the length of the stream, and
    the buffer holds exactly the items between the two. *)
Theorem offset_and_streamlen_only_grow (Wd : World) (ops : list Op) :
  reachable Wd → len (written (run Wd ops)) ≤ int_max →
  offset (shared Wd) ≤ offset (shared (run Wd ops)) ∧
  streamlen (shared Wd) ≤ streamlen (shared (run Wd ops)) ∧
  0 ≤ offset (shared (run Wd ops)) ≤ streamlen (shared (run Wd ops)) ∧
  len (items (shared (run Wd ops)))
    = streamlen (shared (run Wd ops)) - offset (shared (run Wd ops)).
Proof.
  intros HR Hb. pose proof (written_run_len Wd ops) as Hlen.
  assert (inv Wd) as Hinv by (apply reachable_inv; [done|lia]).
  assert (inv (run Wd ops)) as Hinv'
    by (apply reachable_inv; [by apply reachable_run|done]).
  rewrite (consistent_streamlen _ (proj1 Hinv)), (consistent_streamlen _ (proj1 Hinv')).
  pose proof (inv_offset _ (proj1 Hinv')). pose proof (inv_end _ (proj1 Hinv')).
  split; [by apply offset_run|]. split; [done|]. split; [done|].
  rewrite (inv_items _ (proj1 Hinv')), len_drop; lia.
Qed.

(** X3.  In any run a reader keeps its id and its position never
    decreases; the position stays between 0 and the length of the stream,
    and, for a reader that has not been disposed of, at or above the
    offset, so that the item it is to read next is still in the buffer. *)
Theorem reader_position_only_grows (Wd : World) (ops : list Op) (i : nat) (r : R) :
  reachable Wd → len (written (run Wd ops)) ≤ int_max →
  handles Wd !! i = Some r →
  ∃ r', handles (run Wd ops) !! i = Some r' ∧
    id r' = Z.of_nat i ∧ id r' = id r ∧ pos r ≤ pos r' ∧
    0 ≤ pos r' ≤ streamlen (shared (run Wd ops)) ∧
    (attached (run Wd ops) i → offset (shared (run Wd ops)) ≤ pos r').
Proof.
  intros HR Hb Hir. pose proof (written_run_len Wd ops) as Hlen.
  assert (inv Wd) as Hinv by (apply reachable_inv; [done|lia]).
  assert (inv (run Wd ops)) as Hinv'
    by (apply reachable_inv; [by apply reachable_run|done]).
  destruct (received_run Wd ops i r Hinv Hb Hir) as (r' & Hir' & Hle & _).
  exists r'. split; [done|].
  destruct (inv_handle _ (proj1 Hinv) i r Hir) as (Hid & _).
  destruct (inv_handle _ (proj1 Hinv') i r' Hir') as (Hid' & Hpos' & _).
  rewrite (consistent_streamlen _ (proj1 Hinv')).
  split; [done|]. split; [congruence|]. split; [done|]. split; [done|].
  intros Hatt. by apply (attached_pos _ i r').
Qed.

(** *** What the buffer holds and what a read returns *)

(** X4.  [item] returns exactly the items written at the positions from
    [offset] up to [streamlen]: at such a position it is the item written
    there, and at any other position it is out of range. *)
Theorem item_is_the_written_item (Wd : World) (p : Z) :
  reachable Wd → len (written Wd) ≤ int_max → 0 ≤ p ≤ int_max →
  (offset (shared Wd) ≤ p < streamlen (shared Wd) →
     ∃ x, item (shared Wd) p = Ret x ∧ written Wd !! Z.to_nat p = Some x) ∧
  (p < offset (shared Wd) ∨ streamlen (shared Wd) ≤ p →
     item (shared Wd) p = Panic).
Proof.
  intros HR Hb Hp. destruct (reachable_inv Wd HR Hb) as [HC _].
  rewrite (consistent_streamlen _ HC). split.
  - intros Hin. by apply item_written.
  - intros [Hlt|Hge]; [apply item_discarded; [done|lia]|].
    destruct HC as [Ho He _ Hi _ _]. unfold item, index.
    rewrite wrap_id by int_lia. case_decide; [|done].
    rewrite Hi, lookup_drop, lookup_ge_None_2; [done|]. unfold len in *. lia.
Qed.

Lemma Read_result ctx r w x ok r' w' :
  Read ctx r w = Ret (x, ok, r', w') →
  (ok = false ∧ x = zero w ∧ r' = r ∧ w' = w) ∨
  (ok = true ∧ doRead r w = Ret (x, r', w')).
Proof.
  unfold Read. destruct (Read_cond _ _ _) as [[]| |]; simpl; [done| |done..].
  destruct (Read_done _ _ _); simpl.
  - intros [= <- <- <- <-]. by left.
  - destruct (doRead _ _) as [[[x1 r1] w1]| |]; simpl; [|done..].
    intros [= <- <- <- <-]. by right.
Qed.

Lemma NBRead_result r w x ok r' w' :
  NBRead r w = Ret (x, ok, r', w') →
  (ok = false ∧ x = zero w ∧ r' = r ∧ w' = w) ∨
  (ok = true ∧ doRead r w = Ret (x, r', w')).
Proof.
  unfold NBRead. case_bool_decide; simpl.
  - intros [= <- <- <- <-]. by left.
  - destruct (doRead _ _) as [[[x1 r1] w1]| |]; simpl; [|done..].
    intros [= <- <- <- <-]. by right.
Qed.

Lemma doRead_written Wd r x r' w' :
  consistent Wd → doRead r (shared Wd) = Ret (x, r', w') → x ∈ written Wd.
Proof.
  intros HC. unfold doRead, item, index.
  case_decide; simpl; [|done].
  destruct (items (shared Wd) !! _) as [y|] eqn:Hy; simpl; [|done].
  destruct (assign _ _ _); simpl; [|done..].
  destruct (trim _); simpl; [|done..]. intros [= <- _ _].
  rewrite (inv_items _ HC), lookup_drop in Hy. by eapply list_elem_of_lookup_2.
Qed.

Lemma written_writable z ops :
  Forall (λ x, writable (New z) x = true) (written (run (init z) ops)).
Proof.
  induction ops as [|op ops IH] using rev_ind; [by constructor|].
  rewrite run_snoc.
  destruct (written_after (run (init z) ops) op) as [->|(x & -> & Hw)]; [done|].
  revert Hw. unfold after, step. rewrite Write_writable.
  destruct (writable _ _) eqn:Hwx.
  - intros _. destruct (trim _); simpl; [|done..].
    apply Forall_app. split; [done|]. apply Forall_singleton.
    rewrite <-Hwx. symmetry. apply writable_zerotype, (zerotype_run (init z) ops).
  - simpl. intros Heq. apply (f_equal length) in Heq.
    rewrite length_app in Heq. simpl in Heq. lia.
Qed.

(** X5.  On a stream made by [New z], what [Read] and [NBRead] return is
    either [z] with [false], or with [true] an item that was written to
    the stream, whose type is therefore assignable to the type of [z]. *)
Theorem reads_return_zero_or_a_written_item (z : Item) (ops : list Op)
    (op : Op) (x : Item) (ok : bool) :
  len (written (run (init z) ops)) ≤ int_max →
  result_of (run (init z) ops) op = Ret (Got x ok) →
  (ok = false ∧ x = z) ∨
  (ok = true ∧ x ∈ written (run (init z) ops) ∧ writable (New z) x = true).
Proof.
  intros Hb. set (Wd := run (init z) ops) in *.
  assert (inv Wd) as [HC _]
    by (apply reachable_inv; [apply reachable_run, reachable_init|done]).
  assert (zero (shared Wd) = z) as Hz by apply (zero_run (init z) ops).
  assert (∀ r r' w', doRead r (shared Wd) = Ret (x, r', w') →
            x ∈ written Wd ∧ writable (New z) x = true) as Hdo.
  { intros r r' w' Hdo. pose proof (doRead_written Wd r x r' w' HC Hdo) as Hin.
    split; [done|]. pose proof (written_writable z ops) as Hall.
    rewrite Forall_forall in Hall. by apply Hall. }
  unfold result_of, step, handle. destruct op as [y| | |i ctx|i|i]; simpl.
  - by destruct (Write _ _).
  - done.
  - done.
  - destruct (handles Wd !! i) as [r|]; simpl; [|done].
    destruct (Read _ _ _) as [[[[x1 ok1] r1] w1]| |] eqn:HR; simpl; [|done..].
    intros [= -> ->].
    destruct (Read_result _ _ _ _ _ _ _ HR) as [(-> & -> & _)|(-> & Hd)];
      [by left|right]. split; [done|]. by eapply Hdo.
  - destruct (handles Wd !! i) as [r|]; simpl; [|done].
    destruct (NBRead _ _) as [[[[x1 ok1] r1] w1]| |] eqn:HR; simpl; [|done..].
    intros [= -> ->].
    destruct (NBRead_result _ _ _ _ _ _ HR) as [(-> & -> & _)|(-> & Hd)];
      [by left|right]. split; [done|]. by eapply Hdo.
  - destruct (handles Wd !! i) as [r|]; simpl; [|done].
    by destruct (Dispose _ _).
Qed.

(** X6.  A read through a reader that has not been disposed of never
    indexes the buffer out of range: [NBRead] and [Read] with a context
    that is not nil do not panic, and [Read] with a nil context panics only
    when it has to wait. *)
Theorem attached_reader_reads_in_range (Wd : World) (i : nat) :
  reachable Wd → len (written Wd) ≤ int_max → attached Wd i →
  step Wd (OpNBRead i) ≠ Panic ∧
  (∀ c, step Wd (OpRead i (Some c)) ≠ Panic) ∧
  (step Wd (OpRead i None) = Panic →
   ∃ r, handles Wd !! i = Some r ∧ streamlen (shared Wd) ≤ pos r ∧
        closed (shared Wd) = false).
Proof.
  intros HR Hb Hatt. pose proof (reachable_inv Wd HR Hb) as Hinv.
  destruct Hatt as (r & e & Hir & Hie & He).
  assert (attached Wd i) as Hatt by by exists r, e.
  assert (∀ op, reading i op → step Wd op = Panic →
            op = OpRead i None ∧ len (written Wd) ≤ pos r ∧
            closed (shared Wd) = false) as Hcases.
  { intros op Hop HP.
    destruct (reading_step Wd i r op Hinv Hatt Hir Hop)
      as [(_ & Hres & _)|[(_ & Hres & ? & ?)|(x & Hres & _)]];
      unfold result_of in Hres; rewrite HP in Hres; try done.
    by destruct Hres as [?|[_ ->]]. }
  split; [intros HP; by destruct (Hcases (OpNBRead i) ltac:(by left) HP)|].
  split.
  - intros [] HP; [by rewrite (Read_step_cancelled Wd i r) in HP|].
    by destruct (Hcases (OpRead i (Some false))
                   ltac:(right; by exists (Some false)) HP).
  - intros HP. destruct (Hcases (OpRead i None) ltac:(right; by exists None) HP)
      as (_ & ? & ?).
    exists r. by rewrite (consistent_streamlen _ (proj1 Hinv)).
Qed.

End buffer.

(** ** Several readers *)

Section readers.
Context {Item : Type} `{!GoValue Item}.
Implicit Types (w : W) (r : R) (Wd : World) (x : Item).

(** [n] readers created on a new stream. *)
Lemma readers_only z n :
  shared (run (init z) (replicate n OpReader))
    = mkW z (TypeOf z) false [] 0 (replicate n 0) ∧
  written (run (init z) (replicate n OpReader)) = [] ∧
  length (handles (run (init z) (replicate n OpReader))) = n ∧
  ∀ i, (i < n)%nat →
    handles (run (init z) (replicate n OpReader)) !! i = Some (mkR (Z.of_nat i) 0).
Proof.
  induction n as [|n (Hsh & Hw & Hlen & Hhs)]; [split_and!; try done; lia|].
  rewrite replicate_S_end, run_snoc.
  set (Wd := run (init z) (replicate n OpReader)) in *.
  change (after Wd OpReader)
    with (mkWorld (Reader (shared Wd)).1 (handles Wd ++ [(Reader (shared Wd)).2])
            (written Wd)).
  simpl. rewrite Hsh. simpl. split_and!; try done.
  - by rewrite <-replicate_S_end.
  - rewrite length_app. simpl. lia.
  - intros i Hi. destruct (decide (i = n)) as [->|Hne].
    + rewrite list_lookup_middle by done.
      unfold len. by rewrite length_replicate.
    + rewrite lookup_app_l by lia. apply Hhs. lia.
Qed.

(** X7.  Readers created before anything is written each see the written
    sequence from its beginning: whatever the run and whatever the other
    readers do, the items handed to such a reader are the first items
    written, in the order written, as many as it has read. *)
Theorem early_readers_see_the_same_sequence (z : Item) (n : nat)
    (ops : list Op) (i : nat) :
  (i < n)%nat →
  len (written (run (run (init z) (replicate n OpReader)) ops)) ≤ int_max →
  ∃ r', handles (run (run (init z) (replicate n OpReader)) ops) !! i = Some r' ∧
    0 ≤ pos r' ∧
    trace (run (init z) (replicate n OpReader)) ops ≫= received i
      = take (Z.to_nat (pos r'))
          (written (run (run (init z) (replicate n OpReader)) ops)).
Proof.
  intros Hi Hb. destruct (readers_only z n) as (_ & Hw & _ & Hhs).
  set (Wd0 := run (init z) (replicate n OpReader)) in *.
  assert (inv Wd0) as Hinv.
  { apply reachable_inv; [apply reachable_run, reachable_init|].
    rewrite Hw. unfold len. simpl. int_lia. }
  destruct (received_run Wd0 ops i _ Hinv Hb (Hhs i Hi)) as (r' & Hr' & Hle & Htr).
  exists r'. split; [done|]. split; [done|]. rewrite Htr. unfold window. simpl.
  by rewrite Z.sub_0_r.
Qed.

(** The least entry of a stream without active readers is its length. *)
Lemma trim_min_no_active w :
  (∀ e, e ∈ readerpos w → ¬ active e) → trim_min w = streamlen w.
Proof.
  intros Hno. destruct (trim_min_cases w) as [?|[Hin Hact]]; [done|].
  by destruct (Hno _ Hin).
Qed.

(** X8.  An item written while no reader is active is not kept: after the
    [Write] the buffer is empty and the offset is the length of the stream,
    so that the next reader created starts after the item and finds
    nothing to read. *)
Theorem Write_without_active_reader_keeps_nothing (Wd : World) (x : Item) :
  reachable Wd → len (written Wd) < int_max →
  writable (shared Wd) x = true →
  (∀ e, e ∈ readerpos (shared Wd) → ¬ active e) →
  ∃ Wd1, step Wd (OpWrite x) = Ret (Wd1, Done) ∧
    items (shared Wd1) = [] ∧
    offset (shared Wd1) = streamlen (shared Wd1) ∧
    streamlen (shared Wd1) = streamlen (shared Wd) + 1 ∧
    handles (after Wd1 OpReader) !! length (handles Wd)
      = Some (mkR (Z.of_nat (length (handles Wd))) (streamlen (shared Wd1))) ∧
    step (after Wd1 OpReader) (OpNBRead (length (handles Wd)))
      = Ret (after Wd1 OpReader, Got (zero (shared Wd)) false).
Proof.
  intros HR Hb Hw Hno.
  assert (inv Wd) as Hinv by (apply reachable_inv; [done|lia]).
  destruct (Write_inv Wd x Hinv Hw Hb) as (w1 & HW & Hinv1 & Hrp & _ & Hz & _).
  set (Wd1 := mkWorld w1 (handles Wd) (written Wd ++ [x])) in *.
  pose proof (consistent_streamlen _ (proj1 Hinv1)) as Hsl1. simpl in Hsl1.
  pose proof (inv_end _ (proj1 Hinv1)) as He1. simpl in He1.
  pose proof (inv_offset _ (proj1 Hinv1)) as Ho1. simpl in Ho1.
  assert (offset w1 = streamlen w1) as Hoff.
  { destruct Hinv1 as [_ Htr]. unfold trimmed in Htr. simpl in Htr.
    rewrite trim_min_no_active in Htr by (by rewrite Hrp). lia. }
  exists Wd1. split; [unfold step; by rewrite HW|]. simpl.
  split.
  { pose proof (inv_items _ (proj1 Hinv1)) as Hits. simpl in Hits.
    rewrite Hits. apply drop_ge. unfold len in *. lia. }
  split; [done|].
  split; [by rewrite Hsl1, (consistent_streamlen _ (proj1 Hinv)), len_snoc|].
  assert (handles (after Wd1 OpReader) !! length (handles Wd)
            = Some (mkR (Z.of_nat (length (handles Wd))) (streamlen w1))) as Hnew.
  { simpl. rewrite list_lookup_middle by done.
    pose proof (inv_handles _ (proj1 Hinv1)) as Hh. simpl in Hh.
    unfold len. by rewrite <-Hh, Hoff. }
  split; [done|].
  rewrite <-Hz. change w1 with (shared Wd1).
  change (zero (shared Wd1)) with (zero (shared (after Wd1 OpReader))).
  eapply NBRead_step_nothing; [by apply (Reader_inv Wd1)|done|].
  simpl. lia.
Qed.

(** X9.  [Dispose] lets go of what only the disposed-of reader held: when
    every other active reader is recorded at [m] or beyond, the offset is at
    least [m] after the call.  When no other reader is active the buffer is
    emptied. *)
Theorem Dispose_releases_the_buffer (Wd : World) (i : nat) (r : R) (m : Z) :
  reachable Wd → len (written Wd) ≤ int_max → handles Wd !! i = Some r →
  m ≤ streamlen (shared Wd) →
  (∀ j e, j ≠ i → readerpos (shared Wd) !! j = Some e → active e → m ≤ e) →
  ∃ Wd1, step Wd (OpDispose i) = Ret (Wd1, Done) ∧
    m ≤ offset (shared Wd1) ∧
    written Wd1 = written Wd ∧ handles Wd1 = handles Wd ∧
    streamlen (shared Wd1) = streamlen (shared Wd) ∧
    len (items (shared Wd1)) ≤ streamlen (shared Wd) - m.
Proof.
  intros HR Hb Hir Hm Hothers. pose proof (reachable_inv Wd HR Hb) as Hinv.
  destruct (Dispose_inv Wd i r Hinv Hir) as (w1 & HD & Hinv1 & Hrp & _).
  set (Wd1 := mkWorld w1 (handles Wd) (written Wd)) in *.
  pose proof (consistent_streamlen _ (proj1 Hinv1)) as Hsl1. simpl in Hsl1.
  pose proof (consistent_streamlen _ (proj1 Hinv)) as Hsl.
  destruct (inv_handle _ (proj1 Hinv) i r Hir) as (_ & _ & e0 & Hie0 & _).
  apply lookup_lt_Some in Hie0.
  assert (m ≤ offset w1) as Hoff.
  { destruct Hinv1 as [_ Htr]. unfold trimmed in Htr. simpl in Htr.
    etrans; [|done]. destruct (trim_min_cases w1) as [->|[Hin Hact]]; [lia|].
    rewrite Hrp in Hin. apply list_elem_of_lookup in Hin as [j Hj].
    destruct (decide (j = i)) as [->|Hne].
    - rewrite list_lookup_insert_eq in Hj by done.
      injection Hj as Hj. rewrite <-Hj in Hact. unfold active in Hact. lia.
    - rewrite list_lookup_insert_ne in Hj by done. by eapply Hothers. }
  exists Wd1. split; [unfold step, handle; rewrite Hir; simpl; by rewrite HD|].
  simpl. split_and!; try done; [congruence|].
  pose proof (inv_end _ (proj1 Hinv1)) as He1. simpl in He1.
  pose proof (inv_offset _ (proj1 Hinv1)) as Ho1. simpl in Ho1.
  pose proof (inv_items _ (proj1 Hinv1)) as Hits. simpl in Hits.
  rewrite Hits, len_drop; lia.
Qed.

(** X10.  [Dispose] is idempotent: disposing of a reader a second time
    changes nothing. *)
Theorem Dispose_twice (Wd : World) (i : nat) :
  reachable Wd → len (written Wd) ≤ int_max →
  after (after Wd (OpDispose i)) (OpDispose i) = after Wd (OpDispose i).
Proof.
  intros HR Hb. pose proof (reachable_inv Wd HR Hb) as Hinv.
  destruct (handles Wd !! i) as [r|] eqn:Hir.
  - destruct (Dispose_inv Wd i r Hinv Hir) as (w1 & HD & Hinv1 & Hrp & _).
    assert (step Wd (OpDispose i) = Ret (mkWorld w1 (handles Wd) (written Wd), Done)) as Hst.
    { unfold step, handle. rewrite Hir. simpl. by rewrite HD. }
    rewrite (after_Ret _ _ _ _ Hst).
    apply (after_Ret _ _ _ Done). unfold step, handle. simpl. rewrite Hir. simpl.
    destruct (inv_handle _ (proj1 Hinv) i r Hir) as (Hid & _ & e & Hie & _).
    apply lookup_lt_Some in Hie.
    unfold Dispose, assign. rewrite Hid, Nat2Z.id.
    rewrite decide_True by (unfold len; rewrite Hrp, length_insert; lia).
    simpl. rewrite Hrp, list_insert_insert_eq, <-Hrp.
    replace (set_readerpos w1 (readerpos w1)) with w1 by by destruct w1.
    rewrite trim_trimmed; [done| |apply Hinv1].
    apply (consistent_in_range _ (proj1 Hinv1)).
  - assert (step Wd (OpDispose i) = Panic) as Hst
      by (unfold step, handle; by rewrite Hir).
    by rewrite !(after_Panic _ _ Hst).
Qed.

(** A call that neither reads through reader [i] nor disposes of it leaves
    its entry as it is. *)
Lemma entry_after_other Wd op i e :
  inv Wd → reads_of i op = false → (∀ j, op = OpDispose j → j ≠ i) →
  readerpos (shared Wd) !! i = Some e →
  readerpos (shared (after Wd op)) !! i = Some e.
Proof.
  intros Hinv Hop Hnd Hie. destruct op as [x| | |j ctx|j|j]; simpl in Hop.
  - unfold after, step. rewrite Write_writable. destruct (writable _ _); [|done].
    destruct (trim _) as [w'| |] eqn:Htrim; simpl; [|done..].
    by destruct (trim_frame _ _ Htrim) as (-> & _).
  - done.
  - simpl. by apply lookup_app_l_Some.
  - apply bool_decide_eq_false in Hop.
    destruct (handles Wd !! j) as [rj|] eqn:Hjr.
    + destruct (read_step Wd j rj (OpRead j ctx) Hinv Hjr) as [[-> _]|[Hp Hst]];
        [eauto|done|].
      destruct (NBRead_step_item Wd j rj Hinv Hjr Hp)
        as (x & Wd' & HNB & _ & _ & _ & _ & Hrp & _).
      rewrite <-Hst in HNB. rewrite (after_Ret _ _ _ _ HNB), Hrp.
      by rewrite list_lookup_insert_ne.
    + rewrite after_Panic; [done|]. unfold step, handle. by rewrite Hjr.
  - apply bool_decide_eq_false in Hop.
    destruct (handles Wd !! j) as [rj|] eqn:Hjr.
    + destruct (read_step Wd j rj (OpNBRead j) Hinv Hjr) as [[-> _]|[Hp Hst]];
        [eauto|done|].
      destruct (NBRead_step_item Wd j rj Hinv Hjr Hp)
        as (x & Wd' & HNB & _ & _ & _ & _ & Hrp & _).
      rewrite (after_Ret _ _ _ _ HNB), Hrp. by rewrite list_lookup_insert_ne.
    + rewrite after_Panic; [done|]. unfold step, handle. by rewrite Hjr.
  - assert (j ≠ i) as Hne by by apply Hnd.
    destruct (handles Wd !! j) as [rj|] eqn:Hjr.
    + destruct (Dispose_inv Wd j rj Hinv Hjr) as (w' & HD & _ & Hrp & _).
      unfold after, step, handle. rewrite Hjr. simpl. rewrite HD. simpl.
      by rewrite Hrp, list_lookup_insert_ne.
    + rewrite after_Panic; [done|]. unfold step, handle. by rewrite Hjr.
Qed.

Lemma untouched_run Wd ops i r e :
  inv Wd → len (written (run Wd ops)) ≤ int_max →
  handles Wd !! i = Some r → readerpos (shared Wd) !! i = Some e →
  Forall (λ op, reads_of i op = false ∧ ∀ j, op = OpDispose j → j ≠ i) ops →
  inv (run Wd ops) ∧ handles (run Wd ops) !! i = Some r ∧
  readerpos (shared (run Wd ops)) !! i = Some e.
Proof.
  revert Wd. induction ops as [|op ops IH]; intros Wd Hinv Hb Hir Hie Hops; [done|].
  apply Forall_cons in Hops as [[Hop Hnd] Hops]. rewrite run_cons in *.
  pose proof (written_run_len (after Wd op) ops).
  apply IH; try done.
  - apply inv_after; [done|lia].
  - by apply handles_after_other.
  - by apply entry_after_other.
Qed.

(** X11.  The entry that [Reader] records for a new reader is 0, and while
    a reader's entry is 0 nothing is trimmed: for as long as the reader has
    neither read nor been disposed of, the offset stays where it is and
    every item written stays in the buffer, however far the other readers
    have read. *)
Theorem unread_reader_pins_the_buffer (Wd : World) (ops : list Op) (i : nat) :
  reachable Wd → len (written (run Wd ops)) ≤ int_max →
  is_Some (handles Wd !! i) → readerpos (shared Wd) !! i = Some 0 →
  Forall (λ op, reads_of i op = false ∧ ∀ j, op = OpDispose j → j ≠ i) ops →
  offset (shared (run Wd ops)) = offset (shared Wd) ∧
  items (shared (run Wd ops))
    = drop (Z.to_nat (offset (shared Wd))) (written (run Wd ops)).
Proof.
  intros HR Hb [r Hir] Hie Hops. pose proof (written_run_len Wd ops) as Hlen.
  assert (inv Wd) as Hinv by (apply reachable_inv; [done|lia]).
  destruct (untouched_run Wd ops i r 0 Hinv Hb Hir Hie Hops) as (Hinv' & Hir' & Hie').
  assert (offset (shared (run Wd ops)) = offset (shared Wd)) as Hoff.
  { destruct (inv_handle _ (proj1 Hinv) i r Hir) as (_ & _ & e & He & Ht).
    destruct (inv_handle _ (proj1 Hinv') i r Hir') as (_ & _ & e' & He' & Ht').
    assert (e = 0) as -> by congruence. assert (e' = 0) as -> by congruence.
    pose proof (inv_offset _ (proj1 Hinv)). pose proof (inv_offset _ (proj1 Hinv')).
    unfold tracks in *. lia. }
  split; [done|]. by rewrite <-Hoff, (inv_items _ (proj1 Hinv')).
Qed.

(** X15.  What a waiting reader finds when it is woken.  If a [Read]
    through a reader that has not been disposed of has to wait, then after
    the next [Write] of an assignable item its attempt returns that very
    item with [true], and after [Close] its attempt returns the zero value
    with [false]; this holds for a nil context as well, since the loop
    condition no longer reaches [ctx.Err()]. *)
Theorem waiting_Read_is_released (Wd : World) (i : nat) (x : Item) (ctx : context) :
  reachable Wd → len (written Wd) < int_max → attached Wd i →
  step Wd (OpRead i (Some false)) = Blocked →
  writable (shared Wd) x = true → ctx ≠ Some true →
  result_of (after Wd (OpWrite x)) (OpRead i ctx) = Ret (Got x true) ∧
  result_of (after Wd OpClose) (OpRead i ctx) = Ret (Got (zero (shared Wd)) false).
Proof.
  intros HR Hb Hatt Hblocked Hw Hctx.
  assert (inv Wd) as Hinv by (apply reachable_inv; [done|lia]).
  destruct Hatt as (r & e & Hir & Hie & He).
  assert (attached Wd i) as Hatt by by exists r, e.
  assert (len (written Wd) ≤ pos r ∧ closed (shared Wd) = false) as [Hp Hc].
  { destruct (reading_step Wd i r (OpRead i (Some false)) Hinv Hatt Hir)
      as [(_ & Hres & _)|[(_ & _ & ? & ?)|(y & Hres & _)]];
      [right; by exists (Some false)| |done|];
      unfold result_of in Hres; by rewrite Hblocked in Hres. }
  pose proof (attached_pos Wd i r Hinv Hatt Hir) as Hpos.
  assert (reading i (@OpRead Item i ctx)) as Hrd by (right; by exists ctx).
  split.
  - destruct (Write_inv Wd x Hinv Hw Hb) as (w1 & HW & Hinv1 & Hrp & Hcl & _).
    assert (step Wd (OpWrite x)
              = Ret (mkWorld w1 (handles Wd) (written Wd ++ [x]), Done)) as Hst
      by (unfold step; by rewrite HW).
    rewrite (after_Ret _ _ _ _ Hst).
    set (Wd1 := mkWorld w1 (handles Wd) (written Wd ++ [x])) in *.
    assert (attached Wd1 i) as Hatt1.
    { exists r, e. simpl. by rewrite Hrp. }
    destruct (reading_step Wd1 i r (OpRead i ctx) Hinv1 Hatt1 Hir Hrd)
      as [(_ & _ & Hge & _)|[(_ & _ & Hge & _)|(y & Hres & Hy & _)]];
      simpl in *; rewrite ?len_snoc in *; try lia.
    rewrite Hres. replace (Z.to_nat (pos r)) with (length (written Wd)) in Hy
      by (unfold len in *; lia).
    rewrite list_lookup_middle in Hy by done. by injection Hy as ->.
  - assert (inv (after Wd OpClose)) as Hinv1 by by apply Close_inv.
    assert (attached (after Wd OpClose) i) as Hatt1 by by apply step_attached.
    destruct (reading_step (after Wd OpClose) i r (OpRead i ctx) Hinv1 Hatt1 Hir Hrd)
      as [(_ & Hres & _)|[(_ & _ & _ & Hopen)|(y & _ & _ & Hlt & _)]];
      simpl in *; [done|done|lia].
Qed.

End readers.

(** ** The earlier version *)

Section earlier.
Context {Item : Type} `{!GoValue Item}.
Implicit Types (w : W) (r : R) (x : Item).

Lemma min_pick_fold (l : list Z) (m : Z) :
  Forall (λ e, 0 ≤ e) l → foldl Old.min_pick m l = foldl trim_pick m l.
Proof.
  revert m. induction l as [|p l IH]; intros m Hl; [done|].
  apply Forall_cons in Hl as [Hp Hl]. simpl. rewrite IH by done. f_equal.
  unfold Old.min_pick, trim_pick. repeat case_bool_decide; lia.
Qed.

(** X13.  The two versions of the read path agree wherever the earlier one
    can be: on a stream none of whose [readerpos] entries is negative (the
    earlier version has no [Dispose], which alone writes -1), the earlier
    [doRead] and [NBRead] compute what the current ones compute, and the
    earlier [Read] is the current [Read] with a context that is never
    cancelled.  The current [Write] is the earlier [Write] followed by
    [trim]. *)
Theorem earlier_read_path_agrees (r : R) (w : W) :
  Forall (λ e, 0 ≤ e) (readerpos w) → 0 ≤ pos r < int_max →
  Old.doRead r w = doRead r w ∧
  Old.NBRead r w = NBRead r w ∧
  Old.Read r w = Read (Some false) r w ∧
  ∀ x, Write w x = (w' ← Old.Write w x; trim w').
Proof.
  intros Hrp Hp.
  assert (Old.doRead r w = doRead r w) as Hdo.
  { unfold Old.doRead, doRead. destruct (item w (pos r)); simpl; [|done..].
    unfold assign. case_decide as Hid; simpl; [|done].
    unfold trim, trim_min. simpl. rewrite min_pick_fold; [done|].
    apply Forall_insert; [done|]. rewrite wrap_id by int_lia. lia. }
  split; [done|]. split; [by unfold Old.NBRead, NBRead; rewrite Hdo|]. split.
  - unfold Old.Read, Read, Read_cond, Read_done. rewrite Hdo.
    case_bool_decide; [|done]. by destruct (closed w).
  - intros x. unfold Write, Old.Write.
    destruct (TypeOf x), (zerotype w); try done. by destruct (AssignableTo _ _).
Qed.

Lemma Old_Writes_all w (xs : list Item) :
  Forall (λ x, writable w x = true) xs →
  Old.Writes w xs = Ret (set_items w (items w ++ xs)).
Proof.
  revert w. induction xs as [|x xs IH]; intros w Hxs; simpl.
  { rewrite app_nil_r. by destruct w. }
  apply Forall_cons in Hxs as [Hx Hxs].
  assert (Old.Write w x = Ret (set_items w (items w ++ [x]))) as ->.
  { revert Hx. unfold Old.Write, writable.
    destruct (TypeOf x), (zerotype w); try done. by intros ->. }
  simpl. rewrite IH; [|done]. simpl. by rewrite <-(assoc_L (++)).
Qed.

(** X14.  In the earlier version [Write] trims nothing: all the items
    written to a new stream before it has a reader are kept, and the first
    reader created then reads the first item ever written. *)
Theorem earlier_Write_keeps_everything (z x0 : Item) (xs : list Item) :
  Forall (λ x, writable (New z) x = true) (x0 :: xs) →
  len (x0 :: xs) ≤ int_max →
  Old.Writes (New z) (x0 :: xs) = Ret (set_items (New z) (x0 :: xs)) ∧
  ∃ w', Old.NBRead (Reader (set_items (New z) (x0 :: xs))).2
                   (Reader (set_items (New z) (x0 :: xs))).1
          = Ret (x0, true, mkR 0 1, w') ∧
        items w' = xs ∧ offset w' = 1 ∧ readerpos w' = [1].
Proof.
  intros Hxs Hb. split; [by rewrite Old_Writes_all|].
  rewrite len_cons in Hb.
  assert (wrap (0 + len (x0 :: xs)) = len xs + 1) as Hsl
    by (rewrite len_cons, wrap_id; int_lia).
  assert (wrap (0 - 0) = 0) as H0 by (rewrite wrap_id; int_lia).
  assert (wrap (0 + 1) = 1) as H1 by (rewrite wrap_id; int_lia).
  assert (Old.min_pick (len xs + 1) 1 = 1) as Hmin
    by (unfold Old.min_pick; case_bool_decide; int_lia).
  assert (wrap (1 - 0) = 1) as H10 by (rewrite wrap_id; int_lia).
  unfold Old.NBRead, Old.doRead, streamlen, item, index, assign, slice_from. simpl.
  rewrite Hsl, H0, H1, Hmin, H10, H1.
  rewrite bool_decide_false by int_lia. simpl.
  rewrite decide_True by (rewrite len_cons; int_lia). simpl.
  unfold len. simpl. eexists. split; [reflexivity|]. done.
Qed.

End earlier.

(** ** The further properties on streams of the test suite *)

Lemma suspends_only_in_waiting_Read_witness :
  let Wd := after (init (VInt 0)) OpReader in
  (∃ i r, @OpRead value 0 (Some false) = OpRead i (Some false) ∧
          handles Wd !! i = Some r ∧
          streamlen (shared Wd) ≤ pos r ∧ closed (shared Wd) = false) ∧
  step Wd (OpRead 0 (Some false)) = Blocked.
Proof.
  intros Wd.
  assert (∃ i r, @OpRead value 0 (Some false) = OpRead i (Some false) ∧
            handles Wd !! i = Some r ∧
            streamlen (shared Wd) ≤ pos r ∧ closed (shared Wd) = false) as Hex.
  { exists 0%nat, (mkR 0 0). split; [reflexivity|]. evaluate. }
  split; [exact Hex|].
  exact (proj2 (suspends_only_in_waiting_Read Wd (OpRead 0 (Some false))) Hex).
Defined.

Lemma Write_checks_the_type_only_witness :
  let ops := [OpReader; OpClose] in
  step (run (init (VInt 0)) ops) (OpWrite (VString "foo")) = Panic ∧
  after (run (init (VInt 0)) ops) (OpWrite (VString "foo")) = run (init (VInt 0)) ops.
Proof.
  intros ops.
  assert (len (written (run (init (VInt 0)) ops)) < int_max) as Hb by evaluate.
  assert (writable (New (VInt 0)) (VString "foo") = false) as Hw by reflexivity.
  exact (proj1 (Write_checks_the_type_only (VInt 0) ops (VString "foo") Hb) Hw).
Defined.

Lemma offset_and_streamlen_only_grow_witness :
  let Wd := run (init (VInt 0)) [OpReader; OpWrite (VInt 1); OpWrite (VInt 2)] in
  let ops := [OpNBRead 0; OpWrite (VInt 3); OpNBRead 0] in
  offset (shared Wd) ≤ offset (shared (run Wd ops)) ∧
  streamlen (shared Wd) ≤ streamlen (shared (run Wd ops)) ∧
  0 ≤ offset (shared (run Wd ops)) ≤ streamlen (shared (run Wd ops)) ∧
  len (items (shared (run Wd ops)))
    = streamlen (shared (run Wd ops)) - offset (shared (run Wd ops)).
Proof.
  intros Wd ops.
  assert (reachable Wd) as HR by apply reachable_run, reachable_init.
  assert (len (written (run Wd ops)) ≤ int_max) as Hb by evaluate.
  exact (offset_and_streamlen_only_grow Wd ops HR Hb).
Defined.

Lemma reader_position_only_grows_witness :
  let Wd := run (init (VInt 0)) [OpReader; OpWrite (VInt 1); OpWrite (VInt 2)] in
  let ops := [OpNBRead 0; OpWrite (VInt 3); OpNBRead 0] in
  let r := mkR 0 0 in
  ∃ r', handles (run Wd ops) !! 0%nat = Some r' ∧
    id r' = Z.of_nat 0 ∧ id r' = id r ∧ pos r ≤ pos r' ∧
    0 ≤ pos r' ≤ streamlen (shared (run Wd ops)) ∧
    (attached (run Wd ops) 0 → offset (shared (run Wd ops)) ≤ pos r').
Proof.
  intros Wd ops r.
  assert (reachable Wd) as HR by apply reachable_run, reachable_init.
  assert (len (written (run Wd ops)) ≤ int_max) as Hb by evaluate.
  assert (handles Wd !! 0%nat = Some r) as Hir by evaluate.
  exact (reader_position_only_grows Wd ops 0%nat r HR Hb Hir).
Defined.

Lemma item_is_the_written_item_witness :
  let Wd := run (init (VInt 0))
              [OpReader; OpWrite (VInt 1); OpWrite (VInt 2); OpNBRead 0] in
  (∃ x, item (shared Wd) 1 = Ret x ∧ written Wd !! Z.to_nat 1 = Some x) ∧
  item (shared Wd) 0 = Panic ∧ item (shared Wd) 2 = Panic.
Proof.
  intros Wd.
  assert (reachable Wd) as HR by apply reachable_run, reachable_init.
  assert (len (written Wd) ≤ int_max) as Hb by evaluate.
  assert (0 ≤ 1 ≤ int_max) as Hp by evaluate.
  assert (offset (shared Wd) ≤ 1 < streamlen (shared Wd)) as Hin by evaluate.
  split; [exact (proj1 (item_is_the_written_item Wd 1 HR Hb Hp) Hin)|].
  split; evaluate.
Defined.

Lemma reads_return_zero_or_a_written_item_witness :
  let ops := [OpReader; OpWrite (VInt 1)] in
  (true = false ∧ VInt 1 = VInt 0) ∨
  (true = true ∧ VInt 1 ∈ written (run (init (VInt 0)) ops) ∧
   writable (New (VInt 0)) (VInt 1) = true).
Proof.
  intros ops.
  assert (len (written (run (init (VInt 0)) ops)) ≤ int_max) as Hb by evaluate.
  assert (result_of (run (init (VInt 0)) ops) (OpNBRead 0)
            = Ret (Got (VInt 1) true)) as Hres by evaluate.
  exact (reads_return_zero_or_a_written_item (VInt 0) ops (OpNBRead 0)
           (VInt 1) true Hb Hres).
Defined.

Lemma attached_reader_reads_in_range_witness :
  let Wd := run (init (VInt 0)) [OpReader; OpWrite (VInt 1)] in
  step Wd (OpNBRead 0) ≠ Panic ∧
  (∀ c, step Wd (OpRead 0 (Some c)) ≠ Panic) ∧
  (step Wd (OpRead 0 None) = Panic →
   ∃ r, handles Wd !! 0%nat = Some r ∧ streamlen (shared Wd) ≤ pos r ∧
        closed (shared Wd) = false).
Proof.
  intros Wd.
  assert (reachable Wd) as HR by apply reachable_run, reachable_init.
  assert (len (written Wd) ≤ int_max) as Hb by evaluate.
  assert (attached Wd 0) as Hatt by (exists (mkR 0 0), 0; evaluate).
  exact (attached_reader_reads_in_range Wd 0%nat HR Hb Hatt).
Defined.

Lemma early_readers_see_the_same_sequence_witness :
  let ops := [OpWrite (VInt 1); OpNBRead 0; OpWrite (VInt 2); OpNBRead 1;
              OpNBRead 1; OpDispose 0] in
  ∃ r', handles (run (run (init (VInt 0)) (replicate 2 OpReader)) ops) !! 1%nat
          = Some r' ∧
    0 ≤ pos r' ∧
    trace (run (init (VInt 0)) (replicate 2 OpReader)) ops ≫= received 1
      = take (Z.to_nat (pos r'))
          (written (run (run (init (VInt 0)) (replicate 2 OpReader)) ops)).
Proof.
  intros ops.
  assert (1 < 2)%nat as Hi by lia.
  assert (len (written (run (run (init (VInt 0)) (replicate 2 OpReader)) ops))
            ≤ int_max) as Hb by evaluate.
  exact (early_readers_see_the_same_sequence (VInt 0) 2 ops 1 Hi Hb).
Defined.

Lemma Write_without_active_reader_keeps_nothing_witness :
  let Wd := run (init (VInt 0)) [OpReader; OpDispose 0] in
  let x := VInt 1 in
  ∃ Wd1, step Wd (OpWrite x) = Ret (Wd1, Done) ∧
    items (shared Wd1) = [] ∧
    offset (shared Wd1) = streamlen (shared Wd1) ∧
    streamlen (shared Wd1) = streamlen (shared Wd) + 1 ∧
    handles (after Wd1 OpReader) !! length (handles Wd)
      = Some (mkR (Z.of_nat (length (handles Wd))) (streamlen (shared Wd1))) ∧
    step (after Wd1 OpReader) (OpNBRead (length (handles Wd)))
      = Ret (after Wd1 OpReader, Got (zero (shared Wd)) false).
Proof.
  intros Wd x.
  assert (reachable Wd) as HR by apply reachable_run, reachable_init.
  assert (len (written Wd) < int_max) as Hb by evaluate.
  assert (writable (shared Wd) x = true) as Hw by evaluate.
  assert (∀ e, e ∈ readerpos (shared Wd) → ¬ active e) as Hno.
  { intros e He. change (readerpos (shared Wd)) with [-1] in He.
    apply list_elem_of_singleton in He as ->. unfold active. lia. }
  exact (Write_without_active_reader_keeps_nothing Wd x HR Hb Hw Hno).
Defined.

Lemma Dispose_releases_the_buffer_witness :
  let Wd := run (init (VInt 0))
              [OpReader; OpReader; OpWrite (VInt 1); OpWrite (VInt 2);
               OpNBRead 1; OpNBRead 1] in
  let r := mkR 0 0 in
  let m := 2 in
  len (items (shared Wd)) = 2 ∧
  ∃ Wd1, step Wd (OpDispose 0) = Ret (Wd1, Done) ∧
    m ≤ offset (shared Wd1) ∧
    written Wd1 = written Wd ∧ handles Wd1 = handles Wd ∧
    streamlen (shared Wd1) = streamlen (shared Wd) ∧
    len (items (shared Wd1)) ≤ streamlen (shared Wd) - m.
Proof.
  intros Wd r m.
  assert (reachable Wd) as HR by apply reachable_run, reachable_init.
  assert (len (written Wd) ≤ int_max) as Hb by evaluate.
  assert (handles Wd !! 0%nat = Some r) as Hir by evaluate.
  assert (m ≤ streamlen (shared Wd)) as Hm by evaluate.
  assert (∀ j e, j ≠ 0%nat → readerpos (shared Wd) !! j = Some e → active e → m ≤ e)
    as Hothers.
  { intros [|[|j]] e Hj He _; [exfalso; apply Hj; reflexivity| |];
      vm_compute in He; [|discriminate He].
    injection He as <-. evaluate. }
  split; [evaluate|].
  exact (Dispose_releases_the_buffer Wd 0%nat r m HR Hb Hir Hm Hothers).
Defined.

Lemma Dispose_twice_witness :
  let Wd := run (init (VInt 0)) [OpReader; OpReader; OpWrite (VInt 1)] in
  after (after Wd (OpDispose 0)) (OpDispose 0) = after Wd (OpDispose 0).
Proof.
  intros Wd.
  assert (reachable Wd) as HR by apply reachable_run, reachable_init.
  assert (len (written Wd) ≤ int_max) as Hb by evaluate.
  exact (Dispose_twice Wd 0%nat HR Hb).
Defined.

Lemma unread_reader_pins_the_buffer_witness :
  let Wd := run (init (VInt 0)) [OpWrite (VInt 1); OpReader; OpReader] in
  let ops := [OpWrite (VInt 2); OpWrite (VInt 3); OpNBRead 0; OpNBRead 0] in
  offset (shared (run Wd ops)) = offset (shared Wd) ∧
  items (shared (run Wd ops))
    = drop (Z.to_nat (offset (shared Wd))) (written (run Wd ops)).
Proof.
  intros Wd ops.
  assert (reachable Wd) as HR by apply reachable_run, reachable_init.
  assert (len (written (run Wd ops)) ≤ int_max) as Hb by evaluate.
  assert (is_Some (handles Wd !! 1%nat)) as Hir by (exists (mkR 1 1); evaluate).
  assert (readerpos (shared Wd) !! 1%nat = Some 0) as Hie by evaluate.
  assert (Forall (λ op : @Op value,
            reads_of 1 op = false ∧ ∀ j, op = OpDispose j → j ≠ 1%nat) ops) as Hops.
  { repeat (constructor; [split; [reflexivity|intros j Hj; discriminate Hj]|]).
    constructor. }
  exact (unread_reader_pins_the_buffer Wd ops 1%nat HR Hb Hir Hie Hops).
Defined.

Lemma waiting_Read_is_released_witness :
  let Wd := after (init (VInt 0)) OpReader in
  let x := VInt 1 in
  result_of (after Wd (OpWrite x)) (OpRead 0 None) = Ret (Got x true) ∧
  result_of (after Wd OpClose) (OpRead 0 None) = Ret (Got (zero (shared Wd)) false).
Proof.
  intros Wd x.
  assert (reachable Wd) as HR by apply reachable_step, reachable_init.
  assert (len (written Wd) < int_max) as Hb by evaluate.
  assert (attached Wd 0) as Hatt by (exists (mkR 0 0), 0; evaluate).
  assert (step Wd (OpRead 0 (Some false)) = Blocked) as Hbl by evaluate.
  assert (writable (shared Wd) x = true) as Hw by evaluate.
  assert (@None bool ≠ Some true) as Hctx by discriminate.
  exact (waiting_Read_is_released Wd 0%nat x None HR Hb Hatt Hbl Hw Hctx).
Defined.

Lemma earlier_read_path_agrees_witness :
  let w := shared (run (init (VInt 0)) [OpReader; OpWrite (VInt 1)]) in
  let r := mkR 0 0 in
  Old.doRead r w = doRead r w ∧
  Old.NBRead r w = NBRead r w ∧
  Old.Read r w = Read (Some false) r w ∧
  ∀ x, Write w x = (w' ← Old.Write w x; trim w').
Proof.
  intros w r.
  assert (Forall (λ e, 0 ≤ e) (readerpos w)) as Hrp.
  { change (readerpos w) with [0]. constructor; [lia|constructor]. }
  assert (0 ≤ pos r < int_max) as Hp by evaluate.
  exact (earlier_read_path_agrees r w Hrp Hp).
Defined.

Lemma earlier_Write_keeps_everything_witness :
  let z := VInt 0 in
  let x0 := VInt 1 in
  let xs := [VInt 2] in
  Old.Writes (New z) (x0 :: xs) = Ret (set_items (New z) (x0 :: xs)) ∧
  ∃ w', Old.NBRead (Reader (set_items (New z) (x0 :: xs))).2
                   (Reader (set_items (New z) (x0 :: xs))).1
          = Ret (x0, true, mkR 0 1, w') ∧
        items w' = xs ∧ offset w' = 1 ∧ readerpos w' = [1].
Proof.
  intros z x0 xs.
  assert (Forall (λ x, writable (New z) x = true) (x0 :: xs)) as Hxs
    by (repeat constructor).
  assert (len (x0 :: xs) ≤ int_max) as Hb by evaluate.
  exact (earlier_Write_keeps_everything z x0 xs Hxs Hb).
Defined.

(** TestTrim on the earlier version: the reader sees the item written
    before it was created. *)
Example test_trim_earlier :
  (w1 ← Old.Write (New (VInt 0)) (VInt 1);
   w2 ← Old.Write (Reader w1).1 (VInt 2);
   '(x, ok, _, _) ← Old.Read (Reader w1).2 w2;
   mret (x, ok))
  = Ret (VInt 1, true).
Proof. evaluate. Qed.
